(** * The address arbiter of the HLE kernel (k_address_arbiter.cpp)

    A shallow embedding of [KAddressArbiter] and of the three user-memory
    helpers of its anonymous namespace.  Every operation of the arbiter
    runs with the global scheduler lock held, so one call (or one locked
    block of a call) is one atomic transition on the kernel state; what
    other cores do to user memory between an exclusive load and the
    exclusive store that follows it is part of the state, as a schedule
    of foreign stores. *)

From Stdlib Require Import ZArith Lia Bool ZifyBool.
From stdpp Require Import gmap list sorting.
From Equations Require Import Equations.

Local Open Scope Z_scope.

(** ** Machine integers *)

Module Int.

(** [s32] and [u32] values are integers of [Z]; the casts of the
    source are written out. *)
Definition modulus : Z := 2 ^ 32.
Definition half_modulus : Z := 2 ^ 31.
Definition min_s32 : Z := - half_modulus.
Definition max_s32 : Z := half_modulus - 1.

(** [static_cast<u32>(z)] *)
Definition to_u32 (z : Z) : Z := z mod modulus.

(** [static_cast<s32>(z)], also the result of [s32] arithmetic on a
    two's-complement target. *)
Definition to_s32 (z : Z) : Z := (z + half_modulus) mod modulus - half_modulus.

Definition is_s32 (z : Z) : Prop := min_s32 <= z <= max_s32.

(** [a + b] and [a - b] on [s32] operands. *)
Definition add (a b : Z) : Z := to_s32 (a + b).
Definition sub (a b : Z) : Z := to_s32 (a - b).

End Int.

Abbreviation VAddr := Z (only parsing).
Abbreviation s32 := Z (only parsing).
Abbreviation u32 := Z (only parsing).
Abbreviation s64 := Z (only parsing).

(** ** User memory and the exclusive monitor *)

(** A store performed by another core. *)
Record Store := { store_addr : VAddr; store_value : u32 }.

(** Modelled from the spec: [Core::Memory] and [Core::ExclusiveMonitor]
    are declared outside this file.  [memory] is guest memory in 32-bit
    cells (an unmapped cell reads 0); [exclusive] is the reservation of
    the current core; [others] lists, for each coming window between an
    exclusive load and the next exclusive store or clear, the stores the
    other cores commit in that window. *)
Record System := {
  memory : gmap Z Z;
  exclusive : option Z;
  others : list (list Store);
}.

Module Monitor.

(** Modelled from the spec: [system.Memory().Read32(address)], one
    plain 32-bit load. *)
Definition Read32 (system : System) (address : VAddr) : u32 :=
  default 0 (memory system !! address).

(** Modelled from the spec: one store of another core.  It is
    committed, and it takes away a reservation held on the same
    address. *)
Definition foreign_store (system : System) (w : Store) : System :=
  {| memory := <[store_addr w := Int.to_u32 (store_value w)]> (memory system);
     exclusive := match exclusive system with
                  | Some a => if bool_decide (a = store_addr w) then None else Some a
                  | None => None
                  end;
     others := others system |}.

(** Modelled from the spec: the other cores run for one window. *)
Definition interfere (system : System) : System :=
  match others system with
  | [] => system
  | window :: rest =>
      foldl foreign_store
        {| memory := memory system; exclusive := exclusive system; others := rest |}
        window
  end.

(** Modelled from the spec: [monitor.ExclusiveRead32(core, address)]
    loads and takes a reservation; the window of the other cores
    opens. *)
Definition ExclusiveRead32 (system : System) (address : VAddr) : u32 * System :=
  (Read32 system address,
   interfere {| memory := memory system; exclusive := Some address;
                others := others system |}).

(** Modelled from the spec: [monitor.ExclusiveWrite32(core, address,
    value)] commits iff the reservation is still valid and returns
    whether it did; the reservation is gone afterwards. *)
Definition ExclusiveWrite32 (system : System) (address : VAddr) (value : u32)
  : bool * System :=
  if bool_decide (exclusive system = Some address) then
    (true, {| memory := <[address := value]> (memory system); exclusive := None;
              others := others system |})
  else
    (false, {| memory := memory system; exclusive := None; others := others system |}).

(** Modelled from the spec: [monitor.ClearExclusive()]. *)
Definition ClearExclusive (system : System) : System :=
  {| memory := memory system; exclusive := None; others := others system |}.

End Monitor.

Import Monitor.

(** ** The helpers of the anonymous namespace *)

(** Each helper returns the system after the call, the content of [*out]
    after the call and the returned [bool]. *)

Definition ReadFromUser (system : System) (out : s32) (address : VAddr)
  : System * s32 * bool :=
  let out := Int.to_s32 (Read32 system address) in
  (system, out, true).

Lemma foldl_foreign_store_others window system :
  others (foldl foreign_store system window) = others system.
Proof.
  revert system. induction window as [|w window IH]; intros system; simpl; [done|].
  by rewrite IH.
Qed.

Lemma interfere_nil system : others system = [] → interfere system = system.
Proof. intros H. unfold interfere. by rewrite H. Qed.

(** A store that fails right after the exclusive load means that a
    window of the schedule has been used up. *)
Lemma failed_store_consumes system address value v sys1 sys2 :
  ExclusiveRead32 system address = (v, sys1) →
  ExclusiveWrite32 sys1 address value = (false, sys2) →
  (length (others sys2) < length (others system))%nat.
Proof.
  unfold ExclusiveRead32, ExclusiveWrite32, interfere. simpl.
  intros Hrd Hwr. injection Hrd as _ <-.
  destruct (others system) as [|window rest] eqn:Hoth; simpl in *.
  - rewrite bool_decide_eq_true_2 in Hwr by done. discriminate.
  - case_bool_decide; [discriminate|]. injection Hwr as <-. simpl.
    rewrite foldl_foreign_store_others. simpl. lia.
Qed.

(** Keeps the equation of a scrutinee in the branches of a [with]. *)
Definition inspect {A : Type} (a : A) : {b : A | a = b} := exist _ a eq_refl.

(** The common tail of the two read-modify-write helpers:
    [*out = current_value; return true;]. *)
Definition finish (system : System) (out : s32) (current_value : s32)
  : System * s32 * bool :=
  let out := current_value in
  (system, out, true).

Equations? DecrementIfLessThan (system : System) (out : s32) (address : VAddr) (value : s32)
  : System * s32 * bool by wf (length (others system)) lt :=
  DecrementIfLessThan system out address value
    with inspect (ExclusiveRead32 system address) := {
    | exist _ (current, system1) Hrd
        with inspect (Int.to_s32 current <? value) := {
        | exist _ true _
            with inspect (ExclusiveWrite32 system1 address
                            (Int.to_u32 (Int.sub (Int.to_s32 current) 1))) := {
            | exist _ (true, system2) _ =>
                finish system2 out (Int.to_s32 current)
            | exist _ (false, system2) Hwr =>
                (* If we failed to store, try again. *)
                let '(system3, out, _) := DecrementIfLessThan system2 out address value in
                finish system3 out (Int.to_s32 current) }
        | exist _ false _ =>
            finish (ClearExclusive system1) out (Int.to_s32 current) } }.
Proof. eapply failed_store_consumes; eauto. Qed.

Equations? UpdateIfEqual (system : System) (out : s32) (address : VAddr)
    (value new_value : s32)
  : System * s32 * bool by wf (length (others system)) lt :=
  UpdateIfEqual system out address value new_value
    with inspect (ExclusiveRead32 system address) := {
    | exist _ (current, system1) Hrd
        with inspect (Int.to_s32 current =? value) := {
        | exist _ true _
            with inspect (ExclusiveWrite32 system1 address (Int.to_u32 new_value)) := {
            | exist _ (true, system2) _ =>
                finish system2 out (Int.to_s32 current)
            | exist _ (false, system2) Hwr =>
                (* If we failed to store, try again. *)
                let '(system3, out, _) :=
                  UpdateIfEqual system2 out address value new_value in
                finish system3 out (Int.to_s32 current) }
        | exist _ false _ =>
            finish (ClearExclusive system1) out (Int.to_s32 current) } }.
Proof. eapply failed_store_consumes; eauto. Qed.

(** ** The helpers as the design document words them

    "v := ExclusiveRead32(addr).  If v < bound: attempt
    ExclusiveWrite32(addr, v - 1).  On failure, restart from step 1.
    Else: ClearExclusive().  Return v."  The value returned is the one
    of the attempt that ends the operation. *)

Equations? DecrementIfLessThan_spec (system : System) (addr : VAddr) (bound : s32)
  : System * s32 * bool by wf (length (others system)) lt :=
  DecrementIfLessThan_spec system addr bound
    with inspect (ExclusiveRead32 system addr) := {
    | exist _ (v, system1) Hrd
        with inspect (Int.to_s32 v <? bound) := {
        | exist _ true _
            with inspect (ExclusiveWrite32 system1 addr
                            (Int.to_u32 (Int.sub (Int.to_s32 v) 1))) := {
            | exist _ (true, system2) _ => (system2, Int.to_s32 v, true)
            | exist _ (false, system2) Hwr => DecrementIfLessThan_spec system2 addr bound }
        | exist _ false _ => (ClearExclusive system1, Int.to_s32 v, true) } }.
Proof. eapply failed_store_consumes; eauto. Qed.

Equations? UpdateIfEqual_spec (system : System) (addr : VAddr) (expected new_value : s32)
  : System * s32 * bool by wf (length (others system)) lt :=
  UpdateIfEqual_spec system addr expected new_value
    with inspect (ExclusiveRead32 system addr) := {
    | exist _ (v, system1) Hrd
        with inspect (Int.to_s32 v =? expected) := {
        | exist _ true _
            with inspect (ExclusiveWrite32 system1 addr (Int.to_u32 new_value)) := {
            | exist _ (true, system2) _ => (system2, Int.to_s32 v, true)
            | exist _ (false, system2) Hwr =>
                UpdateIfEqual_spec system2 addr expected new_value }
        | exist _ false _ => (ClearExclusive system1, Int.to_s32 v, true) } }.
Proof. eapply failed_store_consumes; eauto. Qed.

(** The system after a helper call in which no other core interferes:
    the reservation is released, and [cell] is what the helper stored. *)
Definition committed (system : System) (address : VAddr) (cell : u32) : System :=
  {| memory := <[address := cell]> (memory system); exclusive := None;
     others := others system |}.

(** ** Threads *)

Inductive ResultCode :=
| RESULT_SUCCESS
| ResultInvalidCurrentMemory
| ResultInvalidState
| ResultTimedOut
| ResultTerminationRequested.

Inductive ThreadState := Initialized | Waiting | Runnable | Terminated.

Inductive ThreadWaitReasonForDebugging := NoWaitReason | Arbitration.

(** Modelled from the spec: [KThread] is declared in k_thread.h, outside
    this file.  The fields are the ones behind the accessors the arbiter
    calls; [arbiter_tree] is the tree pointer that [SetAddressArbiter]
    records ([true]: not null). *)
Record KThread := {
  priority : s32;
  termination_requested : bool;
  thread_state : ThreadState;
  wait_reason : ThreadWaitReasonForDebugging;
  synced_object : option Z;
  wait_result : ResultCode;
  arbiter_tree : bool;
  address_arbiter_key : VAddr;
}.

#[global] Instance ResultCode_eq_dec : EqDecision ResultCode.
Proof. solve_decision. Defined.
#[global] Instance ThreadState_eq_dec : EqDecision ThreadState.
Proof. solve_decision. Defined.
#[global] Instance WaitReason_eq_dec : EqDecision ThreadWaitReasonForDebugging.
Proof. solve_decision. Defined.

(** A thread object nobody has touched yet. *)
Definition fresh_thread : KThread :=
  {| priority := 0; termination_requested := false; thread_state := Initialized;
     wait_reason := NoWaitReason; synced_object := None;
     wait_result := RESULT_SUCCESS; arbiter_tree := false;
     address_arbiter_key := 0 |}.

#[global] Instance KThread_inhabited : Inhabited KThread := populate fresh_thread.

Module Thread.

(** Modelled from the spec: the accessors of [KThread] that the arbiter
    calls.  [SetSyncedObject] stores the object and the wait result
    that [GetWaitResult] returns; [SetAddressArbiter] records tree and
    key, [ClearAddressArbiter] forgets the tree, and
    [IsWaitingForAddressArbiter] tells whether a tree is recorded. *)
Definition IsTerminationRequested (t : KThread) : bool := termination_requested t.
Definition IsWaitingForAddressArbiter (t : KThread) : bool := arbiter_tree t.
Definition GetAddressArbiterKey (t : KThread) : VAddr := address_arbiter_key t.
Definition GetPriority (t : KThread) : s32 := priority t.
Definition GetWaitResult (t : KThread) : ResultCode := wait_result t.

Definition SetSyncedObject (obj : option Z) (result : ResultCode) (t : KThread)
  : KThread :=
  {| priority := priority t; termination_requested := termination_requested t;
     thread_state := thread_state t; wait_reason := wait_reason t;
     synced_object := obj; wait_result := result;
     arbiter_tree := arbiter_tree t; address_arbiter_key := address_arbiter_key t |}.

Definition SetAddressArbiter (address : VAddr) (t : KThread) : KThread :=
  {| priority := priority t; termination_requested := termination_requested t;
     thread_state := thread_state t; wait_reason := wait_reason t;
     synced_object := synced_object t; wait_result := wait_result t;
     arbiter_tree := true; address_arbiter_key := address |}.

Definition ClearAddressArbiter (t : KThread) : KThread :=
  {| priority := priority t; termination_requested := termination_requested t;
     thread_state := thread_state t; wait_reason := wait_reason t;
     synced_object := synced_object t; wait_result := wait_result t;
     arbiter_tree := false; address_arbiter_key := address_arbiter_key t |}.

Definition SetState (st : ThreadState) (t : KThread) : KThread :=
  {| priority := priority t; termination_requested := termination_requested t;
     thread_state := st; wait_reason := wait_reason t;
     synced_object := synced_object t; wait_result := wait_result t;
     arbiter_tree := arbiter_tree t; address_arbiter_key := address_arbiter_key t |}.

Definition SetWaitReasonForDebugging (r : ThreadWaitReasonForDebugging) (t : KThread)
  : KThread :=
  {| priority := priority t; termination_requested := termination_requested t;
     thread_state := thread_state t; wait_reason := r;
     synced_object := synced_object t; wait_result := wait_result t;
     arbiter_tree := arbiter_tree t; address_arbiter_key := address_arbiter_key t |}.

(** Modelled from the spec: [Wakeup()] makes a waiting thread
    runnable. *)
Definition Wakeup (t : KThread) : KThread :=
  match thread_state t with
  | Waiting => SetState Runnable t
  | _ => t
  end.

End Thread.

(** ** The kernel state the arbiter works on *)

(** Thread objects live in [threads], under the number that stands for
    their address; the intrusive tree of the arbiter is the list of its
    nodes in iteration order.  [sleepers] are the threads with a pending
    time event, [woken] the threads [Wakeup] was called on, oldest call
    first. *)
Record Kernel := {
  system : System;
  threads : gmap nat KThread;
  thread_tree : list nat;
  current_thread : nat;
  sleepers : list nat;
  woken : list nat;
}.

Definition thread (k : Kernel) (tid : nat) : KThread := threads k !!! tid.

Definition set_system (sys : System) (k : Kernel) : Kernel :=
  {| system := sys; threads := threads k; thread_tree := thread_tree k;
     current_thread := current_thread k; sleepers := sleepers k; woken := woken k |}.

Definition set_threads (ts : gmap nat KThread) (k : Kernel) : Kernel :=
  {| system := system k; threads := ts; thread_tree := thread_tree k;
     current_thread := current_thread k; sleepers := sleepers k; woken := woken k |}.

Definition set_thread_tree (tree : list nat) (k : Kernel) : Kernel :=
  {| system := system k; threads := threads k; thread_tree := tree;
     current_thread := current_thread k; sleepers := sleepers k; woken := woken k |}.

Definition set_sleepers (l : list nat) (k : Kernel) : Kernel :=
  {| system := system k; threads := threads k; thread_tree := thread_tree k;
     current_thread := current_thread k; sleepers := l; woken := woken k |}.

Definition set_woken (l : list nat) (k : Kernel) : Kernel :=
  {| system := system k; threads := threads k; thread_tree := thread_tree k;
     current_thread := current_thread k; sleepers := sleepers k; woken := l |}.

(** [target->f(...)] for a method [f] that updates the thread object. *)
Definition on_thread (tid : nat) (f : KThread → KThread) (k : Kernel) : Kernel :=
  set_threads (<[tid := f (thread k tid)]> (threads k)) k.

(** Modelled from the spec: [target_thread->Wakeup()], seen from the
    scheduler, which takes note of the call. *)
Definition Wakeup (tid : nat) (k : Kernel) : Kernel :=
  set_woken (woken k ++ [tid]) (on_thread tid Thread.Wakeup k).

(** ** The thread tree *)

Module Tree.

(** Modelled from the spec: the intrusive red-black tree and its
    comparator are declared outside this file.  Nodes are ordered by
    the pair (address key, priority); a node that compares equal to
    nodes already in the tree goes after them. *)
Definition key_lt (a b : Z * Z) : bool :=
  (a.1 <? b.1) || ((a.1 =? b.1) && (a.2 <? b.2)).

Definition node_key (ts : gmap nat KThread) (n : nat) : Z * Z :=
  (Thread.GetAddressArbiterKey (ts !!! n), Thread.GetPriority (ts !!! n)).

(** Modelled from the spec: [nfind_light(light)] is the first node
    that is not less than [light]; the iterator is the list of nodes
    from there on. *)
Fixpoint nfind_light (ts : gmap nat KThread) (light : Z * Z) (tree : list nat)
  : list nat :=
  match tree with
  | [] => []
  | n :: rest =>
      if key_lt (node_key ts n) light then nfind_light ts light rest else tree
  end.

(** Modelled from the spec: [insert(node)] links the node at the
    position of its key, behind the nodes that are not above it. *)
Fixpoint insert (ts : gmap nat KThread) (node : nat) (tree : list nat) : list nat :=
  match tree with
  | [] => [node]
  | n :: rest =>
      if key_lt (node_key ts node) (node_key ts n) then node :: tree
      else n :: insert ts node rest
  end.

(** Modelled from the spec: [erase(it)] unlinks the node under the
    iterator. *)
Definition erase (node : nat) (tree : list nat) : list nat :=
  filter (λ n, n ≠ node) tree.

End Tree.

(** ** Operations that can return early *)

(** A computation either goes on with a value or has executed a
    [return] of the enclosing function. *)
Definition M (A : Type) : Type := Kernel → (ResultCode + A) * Kernel.

#[global] Instance M_ret : MRet M := λ A a k, (inr a, k).
#[global] Instance M_bind : MBind M :=
  λ A B f m k, match m k with
               | (inl rc, k') => (inl rc, k')
               | (inr a, k') => f a k'
               end.

(** [return rc;] *)
Definition Return {A} (rc : ResultCode) : M A := λ k, (inl rc, k).

(** The result a caller of the function sees. *)
Definition call (m : M ResultCode) (k : Kernel) : ResultCode * Kernel :=
  match m k with
  | (inl rc, k') => (rc, k')
  | (inr rc, k') => (rc, k')
  end.

Definition get {A} (f : Kernel → A) : M A := λ k, (inr (f k), k).
Definition modify (f : Kernel → Kernel) : M unit := λ k, (inr tt, f k).

Definition skip : M unit := mret tt.

(** [R_UNLESS(cond, rc)] *)
Definition R_UNLESS (cond : bool) (rc : ResultCode) : M unit :=
  if cond then skip else Return rc.

(** A helper called as [f(system, std::addressof(user_value), ...)] with
    [s32 user_value{}]. *)
Definition user_access (f : System → s32 → System * s32 * bool) : M (s32 * bool) :=
  λ k, let '(sys, user_value, succeeded) := f (system k) 0 in
       (inr (user_value, succeeded), set_system sys k).

(** ** The arbiter *)

(** The body of the loop that the three signal operations share, up to
    [++num_waiters]. *)
Definition wake_target (target_thread : nat) (k : Kernel) : Kernel :=
  let k := on_thread target_thread (Thread.SetSyncedObject None RESULT_SUCCESS) k in
  (* ASSERT(target_thread->IsWaitingForAddressArbiter()) *)
  let k := Wakeup target_thread k in
  let k := set_thread_tree (Tree.erase target_thread (thread_tree k)) k in
  on_thread target_thread Thread.ClearAddressArbiter k.

(** The loop itself, from the iterator [it] on; erasing returns the
    iterator of the next node:
    [while ((it != thread_tree.end()) && (count <= 0 || num_waiters < count) &&
            (it->GetAddressArbiterKey() == addr)) { ...; ++num_waiters; }] *)
Fixpoint wake_loop (addr : VAddr) (count : s32) (it : list nat) (num_waiters : s32)
    (k : Kernel) : Kernel :=
  match it with
  | [] => k
  | target_thread :: next =>
      if ((count <=? 0) || (num_waiters <? count))
         && (Thread.GetAddressArbiterKey (thread k target_thread) =? addr)
      then wake_loop addr count next (Int.add num_waiters 1)
             (wake_target target_thread k)
      else k
  end.

Definition nfind_light (light : Z * Z) : M (list nat) :=
  get (λ k, Tree.nfind_light (threads k) light (thread_tree k)).

Definition Signal (addr : VAddr) (count : s32) : Kernel → ResultCode * Kernel :=
  call (
    let num_waiters := 0 in
    it ← nfind_light (addr, -1);
    modify (wake_loop addr count it num_waiters);;
    Return RESULT_SUCCESS).

Definition SignalAndIncrementIfEqual (addr : VAddr) (value count : s32)
  : Kernel → ResultCode * Kernel :=
  call (
    let num_waiters := 0 in
    '(user_value, succeeded) ←
      user_access (λ system out, UpdateIfEqual system out addr value (Int.add value 1));
    R_UNLESS succeeded ResultInvalidCurrentMemory;;
    if negb (user_value =? value) then Return ResultInvalidState else
    it ← nfind_light (addr, -1);
    modify (wake_loop addr count it num_waiters);;
    Return RESULT_SUCCESS).

(** [it != thread_tree.end() && it->GetAddressArbiterKey() == addr] *)
Definition at_waiter (k : Kernel) (it : list nat) (addr : VAddr) : bool :=
  match it with
  | [] => false
  | n :: _ => Thread.GetAddressArbiterKey (thread k n) =? addr
  end.

(** The counting loop of the live branch, after one [++tmp_it]:
    [while ((++tmp_it != thread_tree.end()) &&
            (tmp_it->GetAddressArbiterKey() == addr)) {
         if ((tmp_num_waiters++) >= count) break; }] *)
Fixpoint count_further (k : Kernel) (addr : VAddr) (count : s32) (tmp_it : list nat)
    (tmp_num_waiters : s32) : s32 :=
  match tmp_it with
  | [] => tmp_num_waiters
  | n :: next =>
      if Thread.GetAddressArbiterKey (thread k n) =? addr then
        if tmp_num_waiters >=? count
        then Int.add tmp_num_waiters 1
        else count_further k addr count next (Int.add tmp_num_waiters 1)
      else tmp_num_waiters
  end.

(** The counting loop of the branch for older firmware:
    [while ((tmp_it != thread_tree.end()) && (tmp_it->GetAddressArbiterKey() == addr) &&
            (tmp_num_waiters < count + 1)) { ++tmp_num_waiters; ++tmp_it; }] *)
Fixpoint count_legacy (k : Kernel) (addr : VAddr) (count : s32) (tmp_it : list nat)
    (tmp_num_waiters : s32) : s32 :=
  match tmp_it with
  | [] => tmp_num_waiters
  | n :: next =>
      if (Thread.GetAddressArbiterKey (thread k n) =? addr)
         && (tmp_num_waiters <? Int.add count 1)
      then count_legacy k addr count next (Int.add tmp_num_waiters 1)
      else tmp_num_waiters
  end.

(** "Determine the updated value." *)
Definition updated_value (k : Kernel) (it : list nat) (addr : VAddr) (value count : s32)
  : s32 :=
  if (* GetTargetFirmware() >= TargetFirmware_7_0_0 *) true then
    if count <=? 0 then
      if at_waiter k it addr then Int.sub value 2 else Int.add value 1
    else
      if at_waiter k it addr then
        let tmp_num_waiters := count_further k addr count (tail it) 0 in
        if tmp_num_waiters <? count then Int.sub value 1 else value
      else Int.add value 1
  else
    if count <=? 0 then
      if at_waiter k it addr then Int.sub value 1 else Int.add value 1
    else
      let tmp_num_waiters := count_legacy k addr count it 0 in
      if tmp_num_waiters =? 0 then Int.add value 1
      else if tmp_num_waiters <=? count then Int.sub value 1
      else value.

Definition SignalAndModifyByWaitingCountIfEqual (addr : VAddr) (value count : s32)
  : Kernel → ResultCode * Kernel :=
  call (
    let num_waiters := 0 in
    it ← nfind_light (addr, -1);
    new_value ← get (λ k, updated_value k it addr value count);
    '(user_value, succeeded) ←
      (if negb (value =? new_value)
       then user_access (λ system out, UpdateIfEqual system out addr value new_value)
       else user_access (λ system out, ReadFromUser system out addr));
    R_UNLESS succeeded ResultInvalidCurrentMemory;;
    if negb (user_value =? value) then Return ResultInvalidState else
    modify (wake_loop addr count it num_waiters);;
    Return RESULT_SUCCESS).

(** Modelled from the spec: [KScopedSchedulerLockAndSleep] and the time
    manager are declared outside this file.  Leaving the scope of [slp]
    registers the time event unless the sleep was cancelled or the
    timeout is not positive, and releases the scheduler lock. *)
Definition ScheduleTimeEvent (tid : nat) (k : Kernel) : Kernel :=
  set_sleepers (tid :: sleepers k) k.

Definition UnscheduleTimeEvent (tid : nat) (k : Kernel) : Kernel :=
  set_sleepers (filter (λ n, n ≠ tid) (sleepers k)) k.

Definition leave_slp (cur_thread : nat) (timeout : s64) : M unit :=
  modify (λ k, if 0 <? timeout then ScheduleTimeEvent cur_thread k else k).

(** "Set the arbiter." up to the end of the locked block. *)
Definition enroll (cur_thread : nat) (addr : VAddr) : M unit :=
  modify (on_thread cur_thread (Thread.SetAddressArbiter addr));;
  modify (λ k, set_thread_tree (Tree.insert (threads k) cur_thread (thread_tree k)) k);;
  modify (on_thread cur_thread (Thread.SetState Waiting));;
  modify (on_thread cur_thread (Thread.SetWaitReasonForDebugging Arbitration)).

(** The code of a wait after the locked block: "Cancel the timer wait.",
    "Remove from the address arbiter.", "Get the result." *)
Definition finish_wait (cur_thread : nat) : M ResultCode :=
  modify (UnscheduleTimeEvent cur_thread);;
  waiting ← get (λ k, Thread.IsWaitingForAddressArbiter (thread k cur_thread));
  (if waiting : bool then
     (* thread_tree.erase(thread_tree.iterator_to( *cur_thread)) *)
     modify (λ k, set_thread_tree (Tree.erase cur_thread (thread_tree k)) k);;
     modify (on_thread cur_thread Thread.ClearAddressArbiter)
   else skip);;
  get (λ k, Thread.GetWaitResult (thread k cur_thread)).

(** The calling thread is parked when the locked block ends with the
    thread in state [Waiting]; [parked] is what the rest of the kernel
    does to the state until the thread runs again. *)
Definition WaitIfLessThan (parked : Kernel → Kernel)
    (addr : VAddr) (value : s32) (decrement : bool) (timeout : s64)
  : Kernel → ResultCode * Kernel :=
  call (
    cur_thread ← get current_thread;
    terminating ← get (λ k, Thread.IsTerminationRequested (thread k cur_thread));
    if terminating : bool then (* slp.CancelSleep() *) Return ResultTerminationRequested else
    modify (on_thread cur_thread (Thread.SetSyncedObject None ResultTimedOut));;
    '(user_value, succeeded) ←
      (if decrement
       then user_access (λ system out, DecrementIfLessThan system out addr value)
       else user_access (λ system out, ReadFromUser system out addr));
    if negb succeeded then (* slp.CancelSleep() *) Return ResultInvalidCurrentMemory else
    if user_value >=? value then (* slp.CancelSleep() *) Return ResultInvalidState else
    if timeout =? 0 then (* slp.CancelSleep() *) Return ResultTimedOut else
    enroll cur_thread addr;;
    leave_slp cur_thread timeout;;
    modify parked;;
    finish_wait cur_thread).

Definition WaitIfEqual (parked : Kernel → Kernel)
    (addr : VAddr) (value : s32) (timeout : s64)
  : Kernel → ResultCode * Kernel :=
  call (
    cur_thread ← get current_thread;
    terminating ← get (λ k, Thread.IsTerminationRequested (thread k cur_thread));
    if terminating : bool then (* slp.CancelSleep() *) Return ResultTerminationRequested else
    modify (on_thread cur_thread (Thread.SetSyncedObject None ResultTimedOut));;
    '(user_value, succeeded) ←
      user_access (λ system out, ReadFromUser system out addr);
    if negb succeeded then (* slp.CancelSleep() *) Return ResultInvalidCurrentMemory else
    if negb (value =? user_value) then (* slp.CancelSleep() *) Return ResultInvalidState else
    if timeout =? 0 then (* slp.CancelSleep() *) Return ResultTimedOut else
    enroll cur_thread addr;;
    leave_slp cur_thread timeout;;
    modify parked;;
    finish_wait cur_thread).

(** ** Well-formed states of the arbiter *)

(** [a] may stand before [b] in the tree. *)
Definition node_le (ts : gmap nat KThread) (a b : nat) : Prop :=
  Tree.key_lt (Tree.node_key ts b) (Tree.node_key ts a) = false.

#[global] Instance node_le_dec ts : RelDecision (node_le ts).
Proof. intros a b. unfold node_le. apply _. Defined.

(** The threads enrolled on [addr], in the order of the tree. *)
Definition waiters (k : Kernel) (addr : VAddr) : list nat :=
  filter (λ n, Thread.GetAddressArbiterKey (thread k n) = addr) (thread_tree k).

(** The tree is in order under the keys its threads store, no thread is
    linked twice, thread priorities are above the tie-break [-1] the
    lookups use, and the threads of the tree are the threads bound to
    the arbiter. *)
Record Inv (k : Kernel) : Prop := {
  inv_sorted : StronglySorted (node_le (threads k)) (thread_tree k);
  inv_nodup : NoDup (thread_tree k);
  inv_priority : ∀ n, 0 <= Thread.GetPriority (thread k n);
  inv_flag : ∀ n, n ∈ thread_tree k ↔ Thread.IsWaitingForAddressArbiter (thread k n) = true;
}.

(** [Inv] as a test on a given state. *)
Definition check_inv (k : Kernel) : bool :=
  bool_decide (StronglySorted (node_le (threads k)) (thread_tree k))
  && bool_decide (NoDup (thread_tree k))
  && bool_decide (map_Forall (λ _ t, 0 <= Thread.GetPriority t) (threads k))
  && bool_decide (Forall (λ n, Thread.IsWaitingForAddressArbiter (thread k n) = true)
                    (thread_tree k))
  && bool_decide (map_Forall (λ n t, Thread.IsWaitingForAddressArbiter t = true →
                                     n ∈ thread_tree k) (threads k)).

(** No other core stores to user memory during the call. *)
Definition quiet (k : Kernel) : Prop := others (system k) = [].

(** The cell at [addr], as the [s32] the helpers read. *)
Definition cell (k : Kernel) (addr : VAddr) : s32 := Int.to_s32 (Read32 (system k) addr).

(** ** Notions the statements use *)

(** What the loop body does to the thread object. *)
Definition woken_thread (t : KThread) : KThread :=
  Thread.ClearAddressArbiter
    (Thread.Wakeup (Thread.SetSyncedObject None RESULT_SUCCESS t)).

(** The threads the loop wakes, read off the state at loop entry. *)
Fixpoint targets (k : Kernel) (addr : VAddr) (count : s32) (it : list nat)
    (num_waiters : s32) : list nat :=
  match it with
  | [] => []
  | n :: next =>
      if ((count <=? 0) || (num_waiters <? count))
         && (Thread.GetAddressArbiterKey (thread k n) =? addr)
      then n :: targets k addr count next (Int.add num_waiters 1)
      else []
  end.

(** The threads a signal with [count] wakes among the waiters [ws]. *)
Definition batch (count : s32) (ws : list nat) : list nat :=
  if count <=? 0 then ws else take (Z.to_nat count) ws.

(** The state when the locked block of a wait ends with the thread
    enrolled. *)
Definition enrolled (cur_thread : nat) (addr : VAddr) (timeout : s64) (k : Kernel)
  : Kernel :=
  let k := on_thread cur_thread (Thread.SetAddressArbiter addr) k in
  let k := set_thread_tree (Tree.insert (threads k) cur_thread (thread_tree k)) k in
  let k := on_thread cur_thread (Thread.SetState Waiting) k in
  let k := on_thread cur_thread (Thread.SetWaitReasonForDebugging Arbitration) k in
  if 0 <? timeout then ScheduleTimeEvent cur_thread k else k.

(** The thread object of a caller that has enrolled on [addr]. *)
Definition enrolled_thread (addr : VAddr) (t : KThread) : KThread :=
  Thread.SetWaitReasonForDebugging Arbitration
    (Thread.SetState Waiting (Thread.SetAddressArbiter addr t)).

(** The code after the locked block, from the state in which the thread
    runs again. *)
Definition resumed (cur_thread : nat) (k : Kernel) : ResultCode * Kernel :=
  let k := UnscheduleTimeEvent cur_thread k in
  let k :=
    if Thread.IsWaitingForAddressArbiter (thread k cur_thread)
    then on_thread cur_thread Thread.ClearAddressArbiter
           (set_thread_tree (Tree.erase cur_thread (thread_tree k)) k)
    else k in
  (Thread.GetWaitResult (thread k cur_thread), k).

(** The tree, the time events, the wake-ups and the binding of every
    thread are as before. *)
Definition arbiter_unchanged (k k' : Kernel) : Prop :=
  thread_tree k' = thread_tree k ∧ sleepers k' = sleepers k ∧ woken k' = woken k ∧
  ∀ n, arbiter_tree (thread k' n) = arbiter_tree (thread k n) ∧
       address_arbiter_key (thread k' n) = address_arbiter_key (thread k n).

(** ** The scenarios of the design document *)

Definition waiter (prio : s32) (addr : VAddr) : KThread :=
  {| priority := prio; termination_requested := false; thread_state := Waiting;
     wait_reason := Arbitration; synced_object := None;
     wait_result := ResultTimedOut; arbiter_tree := true;
     address_arbiter_key := addr |}.

Definition runner (prio : s32) : KThread :=
  {| priority := prio; termination_requested := false; thread_state := Runnable;
     wait_reason := NoWaitReason; synced_object := None;
     wait_result := RESULT_SUCCESS; arbiter_tree := false;
     address_arbiter_key := 0 |}.

(** T1 (priority 20), T2 (priority 30) and T3 (priority 20) wait on
    0x2000, in this order of arrival; thread 4 waits on 0x3000; thread 5
    runs. *)
Definition three_waiters : Kernel :=
  {| system := {| memory := {[ 8192 := 0; 12288 := 5 ]}; exclusive := None; others := [] |};
     threads := {[ 1%nat := waiter 20 8192; 2%nat := waiter 30 8192;
                   3%nat := waiter 20 8192; 4%nat := waiter 10 12288;
                   5%nat := runner 20 ]};
     thread_tree := [1; 3; 2; 4]%nat;
     current_thread := 5%nat; sleepers := []; woken := [] |}.

(** Two waiters are queued on 0x5000, where the cell holds 10. *)
Definition two_waiters : Kernel :=
  {| system := {| memory := {[ 20480 := 10 ]}; exclusive := None; others := [] |};
     threads := {[ 1%nat := waiter 20 20480; 2%nat := waiter 20 20480;
                   3%nat := runner 20 ]};
     thread_tree := [1; 2]%nat;
     current_thread := 3%nat; sleepers := []; woken := [] |}.

(** A thread that has been asked to terminate calls a wait. *)
Definition terminating_caller : Kernel :=
  on_thread 5
    (λ t, {| priority := priority t; termination_requested := true;
             thread_state := thread_state t; wait_reason := wait_reason t;
             synced_object := synced_object t; wait_result := wait_result t;
             arbiter_tree := arbiter_tree t;
             address_arbiter_key := address_arbiter_key t |})
    three_waiters.

(** The cell at 0x4000 holds 3; the bound is 5. *)
Definition decrement_scene : Kernel :=
  {| system := {| memory := {[ 16384 := 3 ]}; exclusive := None; others := [] |};
     threads := {[ 1%nat := runner 20 ]};
     thread_tree := [];
     current_thread := 1%nat; sleepers := []; woken := [] |}.

(** The cell holds 0x80000000, the bound is 0. *)
Definition lowest_cell : System :=
  {| memory := {[ 16384 := 2147483648 ]}; exclusive := None; others := [] |}.

(** The cell at 0x4000 holds 3; between the exclusive load and the
    exclusive store of the first attempt another core stores 7 there
    (resp. 1, which is still below the bound 5). *)
Definition raced_to (v : u32) : System :=
  {| memory := {[ 16384 := 3 ]}; exclusive := None;
     others := [[ {| store_addr := 16384; store_value := v |} ]] |}.

(** Nobody waits on 0x3000; the cell holds 4 and another core stores 9
    there during the first attempt. *)
Definition raced_signal : Kernel :=
  {| system := {| memory := {[ 12288 := 4 ]}; exclusive := None;
                  others := [[ {| store_addr := 12288; store_value := 9 |} ]] |};
     threads := {[ 1%nat := runner 20 ]};
     thread_tree := [];
     current_thread := 1%nat; sleepers := []; woken := [] |}.

(** * Properties *)

(** ** Integers *)

Lemma to_s32_range z : Int.is_s32 (Int.to_s32 z).
Proof.
  unfold Int.is_s32, Int.to_s32, Int.min_s32, Int.max_s32, Int.modulus, Int.half_modulus.
  pose proof (Z.mod_pos_bound (z + 2 ^ 31) (2 ^ 32)). lia.
Qed.

Lemma to_s32_id z : Int.is_s32 z → Int.to_s32 z = z.
Proof.
  unfold Int.is_s32, Int.to_s32, Int.min_s32, Int.max_s32, Int.modulus, Int.half_modulus.
  intros H. rewrite Z.mod_small; lia.
Qed.

Lemma to_u32_to_s32 z : Int.to_u32 (Int.to_s32 z) = z mod Int.modulus.
Proof.
  unfold Int.to_u32, Int.to_s32, Int.modulus, Int.half_modulus.
  rewrite Zminus_mod_idemp_l. f_equal. lia.
Qed.

Lemma add_no_wrap a b : Int.is_s32 (a + b) → Int.add a b = a + b.
Proof. apply to_s32_id. Qed.

Lemma sub_no_wrap a b : Int.is_s32 (a - b) → Int.sub a b = a - b.
Proof. apply to_s32_id. Qed.

(** ** The helpers *)

(** The two helpers in the shape of the source, as equations that
    rewriting can use. *)
Ltac use_branch_equations :=
  repeat match goal with
         | e : (_ <? _) = _ |- _ => rewrite e
         | e : (_ =? _) = _ |- _ => rewrite e
         | e : ExclusiveWrite32 _ _ _ = _ |- _ => rewrite e
         end.

Lemma DecrementIfLessThan_code system out address value :
  DecrementIfLessThan system out address value
  = let '(current, system1) := ExclusiveRead32 system address in
    let current_value := Int.to_s32 current in
    if current_value <? value then
      let decrement_value := Int.sub current_value 1 in
      let '(stored, system2) :=
        ExclusiveWrite32 system1 address (Int.to_u32 decrement_value) in
      if negb stored then
        let '(system3, out, _) := DecrementIfLessThan system2 out address value in
        finish system3 out current_value
      else finish system2 out current_value
    else finish (ClearExclusive system1) out current_value.
Proof.
  funelim (DecrementIfLessThan system out address value);
    unfold ExclusiveRead32; cbv zeta; cbv beta iota; use_branch_equations;
    reflexivity.
Qed.

Lemma UpdateIfEqual_code system out address value new_value :
  UpdateIfEqual system out address value new_value
  = let '(current, system1) := ExclusiveRead32 system address in
    let current_value := Int.to_s32 current in
    if current_value =? value then
      let '(stored, system2) :=
        ExclusiveWrite32 system1 address (Int.to_u32 new_value) in
      if negb stored then
        let '(system3, out, _) :=
          UpdateIfEqual system2 out address value new_value in
        finish system3 out current_value
      else finish system2 out current_value
    else finish (ClearExclusive system1) out current_value.
Proof.
  funelim (UpdateIfEqual system out address value new_value);
    unfold ExclusiveRead32; cbv zeta; cbv beta iota; use_branch_equations;
    reflexivity.
Qed.

Lemma ExclusiveRead32_quiet system address :
  others system = [] →
  ExclusiveRead32 system address
  = (Read32 system address,
     {| memory := memory system; exclusive := Some address; others := [] |}).
Proof.
  intros H. unfold ExclusiveRead32. rewrite interfere_nil by done. by rewrite H.
Qed.

Lemma DecrementIfLessThan_quiet system out address value :
  others system = [] →
  DecrementIfLessThan system out address value
  = let current_value := Int.to_s32 (Read32 system address) in
    if current_value <? value
    then (committed system address (Int.to_u32 (Int.sub current_value 1)),
          current_value, true)
    else (ClearExclusive system, current_value, true).
Proof.
  intros Hq. rewrite DecrementIfLessThan_code, (ExclusiveRead32_quiet _ _ Hq). simpl.
  destruct (Int.to_s32 (Read32 system address) <? value) eqn:Hlt; simpl.
  - unfold ExclusiveWrite32. simpl. rewrite bool_decide_eq_true_2 by done. simpl.
    unfold finish, committed. by rewrite Hq.
  - unfold finish, ClearExclusive. simpl. by rewrite Hq.
Qed.

Lemma UpdateIfEqual_quiet system out address value new_value :
  others system = [] →
  UpdateIfEqual system out address value new_value
  = let current_value := Int.to_s32 (Read32 system address) in
    if current_value =? value
    then (committed system address (Int.to_u32 new_value), current_value, true)
    else (ClearExclusive system, current_value, true).
Proof.
  intros Hq. rewrite UpdateIfEqual_code, (ExclusiveRead32_quiet _ _ Hq). simpl.
  destruct (Int.to_s32 (Read32 system address) =? value) eqn:Heq; simpl.
  - unfold ExclusiveWrite32. simpl. rewrite bool_decide_eq_true_2 by done. simpl.
    unfold finish, committed. by rewrite Hq.
  - unfold finish, ClearExclusive. simpl. by rewrite Hq.
Qed.

Lemma ReadFromUser_true system out address : (ReadFromUser system out address).2 = true.
Proof. reflexivity. Qed.

Lemma DecrementIfLessThan_true system out address value :
  (DecrementIfLessThan system out address value).2 = true.
Proof.
  rewrite DecrementIfLessThan_code.
  destruct (ExclusiveRead32 _ _) as [current system1]. cbv zeta.
  destruct (_ <? _); [|done].
  destruct (ExclusiveWrite32 _ _ _) as [[] system2]; simpl; [done|].
  by destruct (DecrementIfLessThan _ _ _ _) as [[? ?] ?].
Qed.

Lemma UpdateIfEqual_true system out address value new_value :
  (UpdateIfEqual system out address value new_value).2 = true.
Proof.
  rewrite UpdateIfEqual_code.
  destruct (ExclusiveRead32 _ _) as [current system1]. cbv zeta.
  destruct (_ =? _); [|done].
  destruct (ExclusiveWrite32 _ _ _) as [[] system2]; simpl; [done|].
  by destruct (UpdateIfEqual _ _ _ _ _) as [[? ?] ?].
Qed.

(** What a helper outputs is what its first exclusive load returned. *)
Lemma DecrementIfLessThan_out system out address value :
  (DecrementIfLessThan system out address value).1.2
  = Int.to_s32 (Read32 system address).
Proof.
  rewrite DecrementIfLessThan_code. unfold ExclusiveRead32. cbv zeta.
  destruct (_ <? _); [|done].
  destruct (ExclusiveWrite32 _ _ _) as [[] system2]; simpl; [done|].
  by destruct (DecrementIfLessThan _ _ _ _) as [[? ?] ?].
Qed.

Lemma UpdateIfEqual_out system out address value new_value :
  (UpdateIfEqual system out address value new_value).1.2
  = Int.to_s32 (Read32 system address).
Proof.
  rewrite UpdateIfEqual_code. unfold ExclusiveRead32. cbv zeta.
  destruct (_ =? _); [|done].
  destruct (ExclusiveWrite32 _ _ _) as [[] system2]; simpl; [done|].
  by destruct (UpdateIfEqual _ _ _ _ _) as [[? ?] ?].
Qed.

(** When the first load does not meet the condition the helper stores
    nothing: memory changes by the stores of the other cores only. *)
Lemma UpdateIfEqual_mismatch system out address value new_value :
  Int.to_s32 (Read32 system address) ≠ value →
  (UpdateIfEqual system out address value new_value).1.1
  = ClearExclusive (ExclusiveRead32 system address).2.
Proof.
  intros Hne. rewrite UpdateIfEqual_code. unfold ExclusiveRead32. cbv zeta.
  destruct (Z.eqb_spec (Int.to_s32 (Read32 system address)) value); [done|].
  reflexivity.
Qed.

Lemma DecrementIfLessThan_mismatch system out address value :
  value <= Int.to_s32 (Read32 system address) →
  (DecrementIfLessThan system out address value).1.1
  = ClearExclusive (ExclusiveRead32 system address).2.
Proof.
  intros Hge. rewrite DecrementIfLessThan_code. unfold ExclusiveRead32. cbv zeta.
  destruct (Z.ltb_spec (Int.to_s32 (Read32 system address)) value); [lia|].
  reflexivity.
Qed.

Lemma Read32_committed system address cell :
  Read32 (committed system address cell) address = cell.
Proof. unfold Read32, committed. simpl. by rewrite lookup_insert_eq. Qed.

(** ** The tree *)

Lemma key_lt_true a b :
  Tree.key_lt a b = true ↔ a.1 < b.1 ∨ (a.1 = b.1 ∧ a.2 < b.2).
Proof. unfold Tree.key_lt. lia. Qed.

Lemma key_lt_false a b :
  Tree.key_lt a b = false ↔ b.1 < a.1 ∨ (a.1 = b.1 ∧ b.2 <= a.2).
Proof. unfold Tree.key_lt. lia. Qed.

Lemma node_le_alt ts a b :
  node_le ts a b ↔
  address_arbiter_key (ts !!! a) < address_arbiter_key (ts !!! b) ∨
  (address_arbiter_key (ts !!! a) = address_arbiter_key (ts !!! b) ∧
   priority (ts !!! a) <= priority (ts !!! b)).
Proof.
  unfold node_le. rewrite key_lt_false. unfold Tree.node_key,
    Thread.GetAddressArbiterKey, Thread.GetPriority. simpl. lia.
Qed.

#[global] Instance node_le_trans ts : Transitive (node_le ts).
Proof. intros a b c. rewrite !node_le_alt. lia. Qed.

(** Sortedness looks at the keys and priorities of the nodes only. *)
Lemma sorted_ext ts ts' tree :
  (∀ n, n ∈ tree → Tree.node_key ts n = Tree.node_key ts' n) →
  StronglySorted (node_le ts) tree → StronglySorted (node_le ts') tree.
Proof.
  induction tree as [|a tree IH]; intros Hkeys Hs; [constructor|].
  apply StronglySorted_cons in Hs as [Ha Hs].
  apply StronglySorted_cons. split.
  - apply Forall_forall. intros b Hb. rewrite Forall_forall in Ha.
    specialize (Ha b Hb). unfold node_le in *.
    rewrite <- (Hkeys a), <- (Hkeys b); [done| |]; rewrite elem_of_cons; tauto.
  - apply IH; [|done]. intros n Hn. apply Hkeys. rewrite elem_of_cons. tauto.
Qed.

Lemma sorted_filter ts (P : nat → Prop) `{∀ n, Decision (P n)} tree :
  StronglySorted (node_le ts) tree → StronglySorted (node_le ts) (filter P tree).
Proof.
  induction tree as [|a tree IH]; intros Hs; [constructor|].
  apply StronglySorted_cons in Hs as [Ha Hs].
  rewrite filter_cons. destruct (decide (P a)); [|by apply IH].
  apply StronglySorted_cons. split; [|by apply IH].
  apply Forall_forall. intros b [_ Hb]%list_elem_of_filter.
  rewrite Forall_forall in Ha. by apply Ha.
Qed.

Lemma elem_of_insert ts node tree n :
  n ∈ Tree.insert ts node tree ↔ n = node ∨ n ∈ tree.
Proof.
  induction tree as [|a tree IH]; simpl.
  - rewrite list_elem_of_singleton, elem_of_nil. tauto.
  - destruct (Tree.key_lt _ _); [apply elem_of_cons|].
    rewrite !elem_of_cons, IH. tauto.
Qed.

Lemma insert_sorted ts node tree :
  StronglySorted (node_le ts) tree →
  StronglySorted (node_le ts) (Tree.insert ts node tree).
Proof.
  induction tree as [|a tree IH]; intros Hs; simpl.
  - repeat constructor.
  - destruct (Tree.key_lt _ _) eqn:Hlt.
    + apply StronglySorted_cons. split; [|done].
      assert (node_le ts node a) as Hna.
      { apply key_lt_true in Hlt. apply key_lt_false. lia. }
      apply StronglySorted_cons in Hs as [Ha _].
      constructor; [done|]. eapply Forall_impl; [exact Ha|].
      intros b Hb. by etrans.
    + apply StronglySorted_cons in Hs as [Ha Hs].
      apply StronglySorted_cons. split; [|by apply IH].
      apply Forall_forall. intros b [->|Hb]%elem_of_insert; [exact Hlt|].
      rewrite Forall_forall in Ha. by apply Ha.
Qed.

Lemma insert_nodup ts node tree :
  node ∉ tree → NoDup tree → NoDup (Tree.insert ts node tree).
Proof.
  induction tree as [|a tree IH]; intros Hnot Hnd; simpl.
  - apply NoDup_singleton.
  - destruct (Tree.key_lt _ _); [by constructor|].
    apply NoDup_cons in Hnd as [Ha Hnd].
    apply not_elem_of_cons in Hnot as [Hna Hnot].
    apply NoDup_cons. split; [|by apply IH].
    rewrite elem_of_insert. intros [->|Hin]; done.
Qed.

(** A node goes behind the nodes that are not above it: first come,
    first served among equals. *)
Lemma insert_after_equals ts node tree :
  ∃ front back,
    tree = front ++ back ∧
    Tree.insert ts node tree = front ++ node :: back ∧
    Forall (λ n, node_le ts n node) front ∧
    match back with
    | [] => True
    | n :: _ => Tree.key_lt (Tree.node_key ts node) (Tree.node_key ts n) = true
    end.
Proof.
  induction tree as [|a tree IH]; simpl.
  - by exists [], [].
  - destruct (Tree.key_lt _ _) eqn:Hlt.
    + exists [], (a :: tree). by rewrite Hlt.
    + destruct IH as (front & back & -> & -> & Hf & Hb).
      exists (a :: front), back. repeat split; [|done]. by constructor.
Qed.

Lemma elem_of_erase node tree n : n ∈ Tree.erase node tree ↔ n ≠ node ∧ n ∈ tree.
Proof. unfold Tree.erase. by rewrite list_elem_of_filter. Qed.

(** ** States *)

Lemma thread_on_thread_eq tid f k : thread (on_thread tid f k) tid = f (thread k tid).
Proof. unfold thread, on_thread. simpl. by rewrite lookup_total_insert_eq. Qed.

Lemma thread_on_thread_ne tid f k n :
  n ≠ tid → thread (on_thread tid f k) n = thread k n.
Proof. intros H. unfold thread, on_thread. simpl. by rewrite lookup_total_insert_ne. Qed.

(** [Inv] looks at the tree and at key, priority and binding of each
    thread. *)
Lemma Inv_ext k k' :
  thread_tree k' = thread_tree k →
  (∀ n, address_arbiter_key (thread k' n) = address_arbiter_key (thread k n)) →
  (∀ n, priority (thread k' n) = priority (thread k n)) →
  (∀ n, arbiter_tree (thread k' n) = arbiter_tree (thread k n)) →
  Inv k → Inv k'.
Proof.
  intros Htree Hkey Hprio Hflag [Hs Hnd Hp Hf].
  split; rewrite ?Htree.
  - eapply sorted_ext; [|exact Hs]. intros n _.
    unfold Tree.node_key, Thread.GetAddressArbiterKey, Thread.GetPriority.
    specialize (Hkey n). specialize (Hprio n). unfold thread in *. congruence.
  - done.
  - intros n. unfold Thread.GetPriority. rewrite Hprio. apply Hp.
  - intros n. rewrite Hf. unfold Thread.IsWaitingForAddressArbiter. by rewrite Hflag.
Qed.

Lemma check_inv_sound k : check_inv k = true → Inv k.
Proof.
  unfold check_inv. rewrite !andb_true_iff, !bool_decide_eq_true.
  intros [[[[Hs Hnd] Hp] Hin] Hmap]. split; try done.
  { intros n. unfold thread. rewrite lookup_total_alt.
    destruct (threads k !! n) as [t|] eqn:Hl; simpl; [|done]. by apply (Hp n t). }
  intros n. split.
  - intros Hn. rewrite Forall_forall in Hin. by apply Hin.
  - intros Hw. unfold thread in Hw. rewrite lookup_total_alt in Hw.
    destruct (threads k !! n) as [t|] eqn:Hl; simpl in Hw; [|done].
    by apply (Hmap n t).
Qed.

(** ** The wake loop *)

Lemma wake_target_eq target k :
  wake_target target k
  = {| system := system k;
       threads := <[target := woken_thread (thread k target)]> (threads k);
       thread_tree := Tree.erase target (thread_tree k);
       current_thread := current_thread k;
       sleepers := sleepers k;
       woken := woken k ++ [target] |}.
Proof.
  unfold wake_target, Wakeup, on_thread, set_thread_tree, set_woken, set_threads,
    thread, woken_thread. simpl.
  rewrite !lookup_total_insert_eq, !insert_insert_eq. reflexivity.
Qed.

Lemma wake_target_tree target k :
  thread_tree (wake_target target k) = Tree.erase target (thread_tree k).
Proof. by rewrite wake_target_eq. Qed.

#[local] Arguments wake_target : simpl never.

Lemma woken_thread_fields t :
  wait_result (woken_thread t) = RESULT_SUCCESS ∧
  arbiter_tree (woken_thread t) = false ∧
  address_arbiter_key (woken_thread t) = address_arbiter_key t ∧
  priority (woken_thread t) = priority t ∧
  (thread_state t = Waiting → thread_state (woken_thread t) = Runnable).
Proof.
  unfold woken_thread, Thread.Wakeup. simpl.
  destruct (thread_state t); simpl; repeat split; congruence.
Qed.

Lemma thread_wake_target_eq target k :
  thread (wake_target target k) target = woken_thread (thread k target).
Proof. rewrite wake_target_eq. unfold thread. simpl. by rewrite lookup_total_insert_eq. Qed.

Lemma thread_wake_target_ne target k n :
  n ≠ target → threads (wake_target target k) !! n = threads k !! n.
Proof. intros H. rewrite wake_target_eq. simpl. by rewrite lookup_insert_ne. Qed.

Lemma wake_target_key target k n :
  address_arbiter_key (thread (wake_target target k) n) = address_arbiter_key (thread k n).
Proof.
  destruct (decide (n = target)) as [->|Hne].
  - rewrite thread_wake_target_eq. apply woken_thread_fields.
  - unfold thread. rewrite !lookup_total_alt. by rewrite thread_wake_target_ne.
Qed.

Lemma wake_target_priority target k n :
  priority (thread (wake_target target k) n) = priority (thread k n).
Proof.
  destruct (decide (n = target)) as [->|Hne].
  - rewrite thread_wake_target_eq. apply woken_thread_fields.
  - unfold thread. rewrite !lookup_total_alt. by rewrite thread_wake_target_ne.
Qed.

Lemma targets_ext k k' addr count it num_waiters :
  (∀ n, address_arbiter_key (thread k' n) = address_arbiter_key (thread k n)) →
  targets k' addr count it num_waiters = targets k addr count it num_waiters.
Proof.
  intros Hkey. revert num_waiters.
  induction it as [|n next IH]; intros num_waiters; simpl; [done|].
  unfold Thread.GetAddressArbiterKey. rewrite Hkey, IH. reflexivity.
Qed.

Lemma wake_loop_targets addr count it num_waiters k :
  wake_loop addr count it num_waiters k
  = foldl (λ k n, wake_target n k) k (targets k addr count it num_waiters).
Proof.
  revert num_waiters k.
  induction it as [|n next IH]; intros num_waiters k; simpl; [done|].
  destruct (_ && _); [|done]. simpl. rewrite IH. f_equal.
  apply targets_ext, wake_target_key.
Qed.

(** The effect of waking the threads of a list, one after the other. *)
Lemma wake_all_frame ws k :
  let k' := foldl (λ k n, wake_target n k) k ws in
  system k' = system k ∧ current_thread k' = current_thread k ∧
  sleepers k' = sleepers k ∧ woken k' = woken k ++ ws ∧
  thread_tree k' = filter (λ n, n ∉ ws) (thread_tree k) ∧
  (∀ n, n ∉ ws → threads k' !! n = threads k !! n).
Proof.
  revert k. induction ws as [|w ws IH]; intros k; simpl.
  - repeat split; [by rewrite app_nil_r|].
    induction (thread_tree k) as [|a l IHl]; [done|].
    rewrite filter_cons_True by apply not_elem_of_nil. by f_equal.
  - destruct (IH (wake_target w k)) as (Hsys & Hcur & Hsl & Hwk & Htree & Hthr).
    split_and!.
    + by rewrite Hsys, wake_target_eq.
    + by rewrite Hcur, wake_target_eq.
    + by rewrite Hsl, wake_target_eq.
    + rewrite Hwk, wake_target_eq. simpl. by rewrite <- app_assoc.
    + rewrite Htree, wake_target_eq. simpl.
      unfold Tree.erase. rewrite list_filter_filter. apply list_filter_iff.
      intros n. rewrite not_elem_of_cons. tauto.
    + intros n [Hnw Hn]%not_elem_of_cons. rewrite Hthr by done.
      by rewrite thread_wake_target_ne.
Qed.

Lemma wake_all_woken ws k n :
  NoDup ws → n ∈ ws →
  thread (foldl (λ k n, wake_target n k) k ws) n = woken_thread (thread k n).
Proof.
  revert k. induction ws as [|w ws IH]; intros k Hnd Hn; simpl;
    [by apply elem_of_nil in Hn|].
  apply NoDup_cons in Hnd as [Hw Hnd].
  destruct (decide (n = w)) as [->|Hne].
  - pose proof (wake_all_frame ws (wake_target w k)) as (_ & _ & _ & _ & _ & Hthr).
    unfold thread at 1. rewrite lookup_total_alt, (Hthr w Hw), <- lookup_total_alt.
    apply thread_wake_target_eq.
  - apply elem_of_cons in Hn as [?|Hn]; [done|]. rewrite IH by done.
    unfold thread. rewrite !lookup_total_alt. by rewrite thread_wake_target_ne.
Qed.

(** Waking a thread keeps the state well-formed. *)
Lemma wake_target_Inv target k : Inv k → Inv (wake_target target k).
Proof.
  intros [Hs Hnd Hp Hf]. split.
  - rewrite wake_target_tree.
    apply sorted_filter. eapply sorted_ext; [|exact Hs]. intros n _.
    unfold Tree.node_key, Thread.GetAddressArbiterKey, Thread.GetPriority.
    pose proof (wake_target_key target k n) as Hk.
    pose proof (wake_target_priority target k n) as Hq.
    unfold thread in *. congruence.
  - rewrite wake_target_tree. by apply NoDup_filter.
  - intros n. unfold Thread.GetPriority. rewrite wake_target_priority. apply Hp.
  - intros n. rewrite wake_target_tree, elem_of_erase.
    unfold Thread.IsWaitingForAddressArbiter.
    destruct (decide (n = target)) as [->|Hne].
    + rewrite thread_wake_target_eq.
      destruct (woken_thread_fields (thread k target)) as (_ & -> & _).
      split; [by intros [? _]|done].
    + unfold thread at 1. rewrite lookup_total_alt, thread_wake_target_ne by done.
      rewrite <- lookup_total_alt. rewrite Hf. unfold thread,
        Thread.IsWaitingForAddressArbiter. tauto.
Qed.

Lemma wake_all_Inv ws k : Inv k → Inv (foldl (λ k n, wake_target n k) k ws).
Proof.
  revert k. induction ws as [|w ws IH]; intros k Hinv; simpl; [done|].
  by apply IH, wake_target_Inv.
Qed.

Lemma wake_loop_Inv addr count it num_waiters k :
  Inv k → Inv (wake_loop addr count it num_waiters k).
Proof. rewrite wake_loop_targets. apply wake_all_Inv. Qed.

(** ** Where the lookup lands in a well-formed tree *)

Lemma nfind_light_split ts addr tree :
  StronglySorted (node_le ts) tree →
  Forall (λ n, 0 <= priority (ts !!! n)) tree →
  ∃ front,
    tree = front ++ Tree.nfind_light ts (addr, -1) tree ∧
    Forall (λ n, address_arbiter_key (ts !!! n) < addr) front ∧
    Forall (λ n, addr <= address_arbiter_key (ts !!! n))
      (Tree.nfind_light ts (addr, -1) tree).
Proof.
  induction tree as [|a tree IH]; intros Hs Hp; simpl.
  - by exists [].
  - apply StronglySorted_cons in Hs as [Ha Hs].
    apply Forall_cons in Hp as [Hpa Hp].
    destruct (Tree.key_lt _ _) eqn:Hlt.
    + destruct (IH Hs Hp) as (front & Heq & Hfront & Hit).
      exists (a :: front). split_and!; [by rewrite <- app_comm_cons, <- Heq| |done].
      constructor; [|done].
      apply key_lt_true in Hlt. unfold Tree.node_key, Thread.GetAddressArbiterKey,
        Thread.GetPriority in Hlt. simpl in Hlt. lia.
    + exists []. split_and!; [done|constructor|].
      apply key_lt_false in Hlt. unfold Tree.node_key, Thread.GetAddressArbiterKey,
        Thread.GetPriority in Hlt. simpl in Hlt.
      constructor; [lia|]. eapply Forall_impl; [exact Ha|].
      intros b Hb. apply node_le_alt in Hb. lia.
Qed.

(** Behind a node whose key is above [addr] nobody waits on [addr]. *)
Lemma no_waiter_behind k addr a it :
  Forall (node_le (threads k) a) it →
  addr <= address_arbiter_key (thread k a) →
  address_arbiter_key (thread k a) ≠ addr →
  filter (λ n, address_arbiter_key (thread k n) = addr) it = [].
Proof.
  intros Ha Hge Hne. induction it as [|b it IH]; [done|].
  apply Forall_cons in Ha as [Hb Ha].
  rewrite filter_cons_False; [by apply IH|].
  apply node_le_alt in Hb. unfold thread in *. lia.
Qed.

Lemma nfind_light_waiters k addr :
  Inv k →
  let it := Tree.nfind_light (threads k) (addr, -1) (thread_tree k) in
  waiters k addr = filter (λ n, address_arbiter_key (thread k n) = addr) it ∧
  StronglySorted (node_le (threads k)) it ∧
  Forall (λ n, addr <= address_arbiter_key (thread k n)) it.
Proof.
  intros [Hs Hnd Hp Hf]. cbv zeta.
  assert (Forall (λ n, 0 <= priority (threads k !!! n)) (thread_tree k)) as Hp'.
  { apply Forall_forall. intros n _. apply Hp. }
  destruct (nfind_light_split (threads k) addr (thread_tree k) Hs Hp')
    as (front & Heq & Hfront & Hit).
  split_and!; [|rewrite Heq in Hs; by apply StronglySorted_app in Hs as (_ & _ & ?)|done].
  unfold waiters. rewrite Heq at 1. rewrite filter_app.
  replace (filter _ front) with (@nil nat); [done|].
  symmetry. clear Heq. induction front as [|a front IH]; [done|].
  apply Forall_cons in Hfront as [Ha Hfront].
  rewrite filter_cons_False; [by apply IH|].
  unfold Thread.GetAddressArbiterKey, thread. lia.
Qed.

(** From a position of a sorted tree on, the nodes of [addr] come
    first; the loop takes them until its budget is used up. *)
Lemma targets_sorted k addr count it num_waiters :
  StronglySorted (node_le (threads k)) it →
  Forall (λ n, addr <= address_arbiter_key (thread k n)) it →
  Int.is_s32 count →
  (0 < count → 0 <= num_waiters <= count) →
  targets k addr count it num_waiters
  = let ws := filter (λ n, address_arbiter_key (thread k n) = addr) it in
    if count <=? 0 then ws else take (Z.to_nat (count - num_waiters)) ws.
Proof.
  intros Hs Hge Hcount. revert num_waiters.
  induction it as [|a it IH]; intros num_waiters Hnum; simpl.
  - cbv zeta. rewrite filter_nil, take_nil. by destruct (count <=? 0).
  - apply StronglySorted_cons in Hs as [Ha Hs].
    apply Forall_cons in Hge as [Hgea Hge].
    unfold Thread.GetAddressArbiterKey.
    destruct (Z.eqb_spec (address_arbiter_key (thread k a)) addr) as [Heq|Hne].
    + rewrite filter_cons_True by done. rewrite andb_true_r.
      destruct (Z.leb_spec count 0) as [Hle|Hpos]; simpl.
      * rewrite IH by (done || lia). cbv zeta.
        destruct (Z.leb_spec count 0); [done|lia].
      * specialize (Hnum Hpos).
        destruct (Z.ltb_spec num_waiters count) as [Hlt|Hnlt].
        -- assert (Int.add num_waiters 1 = num_waiters + 1) as ->.
           { apply add_no_wrap. unfold Int.is_s32, Int.min_s32, Int.max_s32,
               Int.half_modulus in *. lia. }
           rewrite IH by (done || lia). cbv zeta.
           destruct (Z.leb_spec count 0); [lia|].
           replace (Z.to_nat (count - num_waiters))
             with (S (Z.to_nat (count - (num_waiters + 1)))) by lia.
           done.
        -- replace (count - num_waiters) with 0 by lia. done.
    + rewrite andb_false_r. rewrite filter_cons_False by done.
      cbv zeta. rewrite (no_waiter_behind k addr a it) by done.
      rewrite take_nil. by destruct (count <=? 0).
Qed.

Lemma signal_targets k addr count :
  Inv k → Int.is_s32 count →
  targets k addr count (Tree.nfind_light (threads k) (addr, -1) (thread_tree k)) 0
  = batch count (waiters k addr).
Proof.
  intros Hinv Hcount.
  destruct (nfind_light_waiters k addr Hinv) as (Hw & Hs & Hge).
  rewrite targets_sorted by (done || lia). cbv zeta. rewrite <- Hw.
  unfold batch. by rewrite Z.sub_0_r.
Qed.

Lemma batch_take count ws :
  batch count ws
  = take (if 0 <? count then Nat.min (length ws) (Z.to_nat count) else length ws) ws.
Proof.
  unfold batch. destruct (Z.leb_spec count 0), (Z.ltb_spec 0 count); try lia.
  - by rewrite firstn_all.
  - destruct (Nat.min_spec (length ws) (Z.to_nat count)) as [[? ->]|[? ->]]; [|done].
    rewrite firstn_all. apply take_ge. lia.
Qed.

Lemma waiters_by_priority k addr :
  Inv k →
  StronglySorted (λ a b, priority (thread k a) <= priority (thread k b)) (waiters k addr).
Proof.
  intros [Hs _ _ _]. unfold waiters.
  induction (thread_tree k) as [|a tree IH]; [constructor|].
  apply StronglySorted_cons in Hs as [Ha Hs].
  rewrite filter_cons. case_decide as Hkey; [|by apply IH].
  apply StronglySorted_cons. split; [|by apply IH].
  apply Forall_forall. intros b [Hb Hin]%list_elem_of_filter.
  rewrite Forall_forall in Ha. specialize (Ha b Hin). apply node_le_alt in Ha.
  unfold Thread.GetAddressArbiterKey, thread in *. lia.
Qed.

Lemma batch_nodup k addr count : Inv k → NoDup (batch count (waiters k addr)).
Proof.
  intros [_ Hnd _ _]. unfold batch, waiters.
  destruct (count <=? 0); [by apply NoDup_filter|].
  eapply sublist_NoDup; [|apply sublist_take]. by apply NoDup_filter.
Qed.

(** The state after the loop of a signal operation that starts at the
    lookup for [addr]. *)
Lemma wake_loop_signal addr count k :
  Inv k → Int.is_s32 count →
  wake_loop addr count (Tree.nfind_light (threads k) (addr, -1) (thread_tree k)) 0 k
  = foldl (λ k n, wake_target n k) k (batch count (waiters k addr)).
Proof. intros Hinv Hc. by rewrite wake_loop_targets, signal_targets. Qed.

Ltac s32_range :=
  unfold Int.is_s32, Int.min_s32, Int.max_s32, Int.half_modulus; lia.

Lemma three_waiters_Inv : Inv three_waiters.
Proof. apply check_inv_sound. vm_compute. reflexivity. Qed.

(** C1. [Signal(addr, count)] returns Success; with k threads enrolled
    on [addr] in a well-formed tree it wakes the first min(k, count) of
    them in tree order when [count > 0] and all k when [count <= 0];
    each of them has wait result Success, is out of the tree and has no
    arbiter binding (and is runnable if it was waiting); the tree keeps
    the other threads in order, no other thread object changes, and
    user memory is not touched.  The order of the tree among the
    waiters of one address is by priority, and a node is linked behind
    the nodes that are not above it: first come, first served among
    equal priorities. *)
Theorem Signal_wakes_exact_batch addr count k :
  Inv k → Int.is_s32 count →
  let ws := waiters k addr in
  let n := if 0 <? count then Nat.min (length ws) (Z.to_nat count) else length ws in
  let r := Signal addr count k in
  r.1 = RESULT_SUCCESS ∧
  woken r.2 = (woken k ++ take n ws) ∧
  length (take n ws) = n ∧
  (∀ t, t ∈ take n ws →
     wait_result (thread r.2 t) = RESULT_SUCCESS ∧
     (t ∉ thread_tree (r.2)) ∧
     Thread.IsWaitingForAddressArbiter (thread r.2 t) = false ∧
     (thread_state (thread k t) = Waiting → thread_state (thread r.2 t) = Runnable)) ∧
  thread_tree r.2 = filter (λ t, t ∉ take n ws) (thread_tree k) ∧
  (∀ t, t ∉ take n ws → threads r.2 !! t = threads k !! t) ∧
  system r.2 = system k ∧
  StronglySorted (λ a b, priority (thread k a) <= priority (thread k b)) ws ∧
  (∀ node, ∃ front back,
     thread_tree k = front ++ back ∧
     Tree.insert (threads k) node (thread_tree k) = front ++ node :: back ∧
     Forall (λ t, node_le (threads k) t node) front ∧
     match back with
     | [] => True
     | t :: _ => Tree.key_lt (Tree.node_key (threads k) node)
                   (Tree.node_key (threads k) t) = true
     end).
Proof.
  intros Hinv Hcount ws n r.
  assert (r = (RESULT_SUCCESS,
               foldl (λ k t, wake_target t k) k (take n ws))) as ->.
  { unfold r, Signal, call, mbind, M_bind, nfind_light, get, modify, Return.
    rewrite wake_loop_signal by done. by rewrite batch_take. }
  cbn [fst snd].
  pose proof (wake_all_frame (take n ws) k) as (Hsys & _ & _ & Hwk & Htree & Hthr).
  assert (NoDup (take n ws)) as Hnd.
  { unfold n, ws. rewrite <- batch_take. by apply batch_nodup. }
  split_and!; try done.
  - rewrite length_take. unfold n. destruct (0 <? count); lia.
  - intros t Ht. rewrite wake_all_woken by done.
    destruct (woken_thread_fields (thread k t)) as (Hres & Hflag & _ & _ & Hst).
    split_and!; try done.
    rewrite Htree, list_elem_of_filter. tauto.
  - by apply waiters_by_priority.
  - intros node. apply insert_after_equals.
Qed.

Lemma Signal_wakes_exact_batch_witness :
  woken (Signal 8192 2 three_waiters).2 = [1; 3]%nat ∧
  thread_tree (Signal 8192 2 three_waiters).2 = [2; 4]%nat.
Proof.
  destruct (Signal_wakes_exact_batch 8192 2 three_waiters three_waiters_Inv
              ltac:(s32_range)) as (_ & Hwoken & _ & _ & Htree & _).
  split; [rewrite Hwoken | rewrite Htree]; vm_compute; reflexivity.
Defined.

(** ** What the signal operations compute *)

#[local] Arguments on_thread : simpl never.
#[local] Arguments set_system : simpl never.
#[local] Arguments set_thread_tree : simpl never.
#[local] Arguments ScheduleTimeEvent : simpl never.
#[local] Arguments UnscheduleTimeEvent : simpl never.
#[local] Arguments thread : simpl never.
#[local] Arguments wake_loop : simpl never.

Ltac run_op :=
  unfold enroll, leave_slp, finish_wait;
  unfold call, mbind, M_bind, mret, M_ret, get, modify, Return, R_UNLESS, skip,
    user_access, nfind_light; cbn beta iota.

Lemma SignalAndIncrementIfEqual_code addr value count k :
  SignalAndIncrementIfEqual addr value count k
  = let '(sys, user_value, _) :=
      UpdateIfEqual (system k) 0 addr value (Int.add value 1) in
    let k1 := set_system sys k in
    if user_value =? value
    then (RESULT_SUCCESS,
          wake_loop addr count
            (Tree.nfind_light (threads k1) (addr, -1) (thread_tree k1)) 0 k1)
    else (ResultInvalidState, k1).
Proof.
  unfold SignalAndIncrementIfEqual. run_op.
  pose proof (UpdateIfEqual_true (system k) 0 addr value (Int.add value 1)) as Hok.
  destruct (UpdateIfEqual _ _ _ _ _) as [[sys uv] ok]. simpl in Hok. subst ok.
  simpl. by destruct (uv =? value).
Qed.

Lemma SignalAndModifyByWaitingCountIfEqual_code addr value count k :
  SignalAndModifyByWaitingCountIfEqual addr value count k
  = let it := Tree.nfind_light (threads k) (addr, -1) (thread_tree k) in
    let new_value := updated_value k it addr value count in
    let '(sys, user_value, _) :=
      if negb (value =? new_value)
      then UpdateIfEqual (system k) 0 addr value new_value
      else ReadFromUser (system k) 0 addr in
    let k1 := set_system sys k in
    if user_value =? value
    then (RESULT_SUCCESS, wake_loop addr count it 0 k1)
    else (ResultInvalidState, k1).
Proof.
  unfold SignalAndModifyByWaitingCountIfEqual. run_op. cbv zeta. simpl.
  set (it := Tree.nfind_light _ _ _). set (new_value := updated_value _ _ _ _ _).
  destruct (value =? new_value); cbn [negb].
  - unfold ReadFromUser. simpl. by destruct (_ =? value).
  - pose proof (UpdateIfEqual_true (system k) 0 addr value new_value) as Hok.
    destruct (UpdateIfEqual _ _ _ _ _) as [[sys uv] ok]. simpl in Hok. subst ok.
    simpl. by destruct (uv =? value).
Qed.

Lemma set_system_Inv sys k : Inv k → Inv (set_system sys k).
Proof. by apply Inv_ext. Qed.

Lemma Signal_Inv addr count k : Inv k → Inv (Signal addr count k).2.
Proof. intros Hinv. unfold Signal. run_op. simpl. by apply wake_loop_Inv. Qed.

Lemma SignalAndIncrementIfEqual_Inv addr value count k :
  Inv k → Inv (SignalAndIncrementIfEqual addr value count k).2.
Proof.
  intros Hinv. rewrite SignalAndIncrementIfEqual_code.
  destruct (UpdateIfEqual _ _ _ _ _) as [[sys uv] ok]. cbv zeta.
  destruct (uv =? value); simpl.
  - by apply wake_loop_Inv, set_system_Inv.
  - by apply set_system_Inv.
Qed.

Lemma SignalAndModifyByWaitingCountIfEqual_Inv addr value count k :
  Inv k → Inv (SignalAndModifyByWaitingCountIfEqual addr value count k).2.
Proof.
  intros Hinv. rewrite SignalAndModifyByWaitingCountIfEqual_code. cbv zeta.
  destruct (if negb _ then _ else _) as [[sys uv] ok].
  destruct (uv =? value); simpl.
  - by apply wake_loop_Inv, set_system_Inv.
  - by apply set_system_Inv.
Qed.

(** ** What the wait operations compute *)

Lemma WaitIfLessThan_code parked addr value decrement timeout k :
  WaitIfLessThan parked addr value decrement timeout k
  = let cur_thread := current_thread k in
    if Thread.IsTerminationRequested (thread k cur_thread)
    then (ResultTerminationRequested, k)
    else
      let k1 := on_thread cur_thread (Thread.SetSyncedObject None ResultTimedOut) k in
      let '(sys, user_value, succeeded) :=
        if decrement
        then DecrementIfLessThan (system k1) 0 addr value
        else ReadFromUser (system k1) 0 addr in
      let k2 := set_system sys k1 in
      if negb succeeded then (ResultInvalidCurrentMemory, k2)
      else if user_value >=? value then (ResultInvalidState, k2)
      else if timeout =? 0 then (ResultTimedOut, k2)
      else resumed cur_thread (parked (enrolled cur_thread addr timeout k2)).
Proof.
  unfold WaitIfLessThan. run_op. cbv zeta.
  destruct (Thread.IsTerminationRequested _); [done|].
  destruct decrement.
  - destruct (DecrementIfLessThan _ _ _ _) as [[sys uv] ok].
    destruct ok; simpl; [|done].
    destruct (uv >=? value); [done|]. destruct (timeout =? 0); [done|].
    unfold resumed, enrolled. simpl.
    by destruct (0 <? timeout); simpl; destruct (Thread.IsWaitingForAddressArbiter _).
  - unfold ReadFromUser. simpl.
    destruct (_ >=? value); [done|]. destruct (timeout =? 0); [done|].
    unfold resumed, enrolled. simpl.
    by destruct (0 <? timeout); simpl; destruct (Thread.IsWaitingForAddressArbiter _).
Qed.

Lemma WaitIfEqual_code parked addr value timeout k :
  WaitIfEqual parked addr value timeout k
  = let cur_thread := current_thread k in
    if Thread.IsTerminationRequested (thread k cur_thread)
    then (ResultTerminationRequested, k)
    else
      let k1 := on_thread cur_thread (Thread.SetSyncedObject None ResultTimedOut) k in
      let '(sys, user_value, succeeded) := ReadFromUser (system k1) 0 addr in
      let k2 := set_system sys k1 in
      if negb succeeded then (ResultInvalidCurrentMemory, k2)
      else if negb (value =? user_value) then (ResultInvalidState, k2)
      else if timeout =? 0 then (ResultTimedOut, k2)
      else resumed cur_thread (parked (enrolled cur_thread addr timeout k2)).
Proof.
  unfold WaitIfEqual. run_op. cbv zeta.
  destruct (Thread.IsTerminationRequested _); [done|].
  unfold ReadFromUser. simpl.
  destruct (negb _); [done|]. destruct (timeout =? 0); [done|].
  unfold resumed, enrolled. simpl.
  by destruct (0 <? timeout); simpl; destruct (Thread.IsWaitingForAddressArbiter _).
Qed.

(** ** Well-formedness across the wait operations *)

Lemma on_thread_Inv tid f k :
  (∀ t, address_arbiter_key (f t) = address_arbiter_key t ∧
        priority (f t) = priority t ∧ arbiter_tree (f t) = arbiter_tree t) →
  Inv k → Inv (on_thread tid f k).
Proof.
  intros Hf. apply Inv_ext; [done|..]; intros n.
  all: (destruct (decide (n = tid)) as [->|Hne];
     [rewrite thread_on_thread_eq; apply Hf | by rewrite thread_on_thread_ne]).
Qed.

Lemma time_event_Inv tid k :
  (Inv k → Inv (ScheduleTimeEvent tid k)) ∧ (Inv k → Inv (UnscheduleTimeEvent tid k)).
Proof. split; by apply Inv_ext. Qed.

(** Enrolling: the binding is set, then the thread is linked under the
    key it has just stored. *)
Lemma enrolled_Inv cur_thread addr timeout k :
  Inv k →
  Thread.IsWaitingForAddressArbiter (thread k cur_thread) = false →
  Inv (enrolled cur_thread addr timeout k).
Proof.
  intros [Hs Hnd Hp Hf] Hcur. unfold enrolled. cbv zeta.
  assert (cur_thread ∉ thread_tree k) as Hnot.
  { rewrite Hf. congruence. }
  set (k1 := on_thread cur_thread (Thread.SetAddressArbiter addr) k).
  set (k2 := set_thread_tree (Tree.insert (threads k1) cur_thread (thread_tree k1)) k1).
  assert (Inv k2) as Hinv2.
  { split.
    - apply insert_sorted. eapply sorted_ext; [|exact Hs].
      intros n Hn. unfold Tree.node_key, k1, on_thread. simpl.
      rewrite lookup_total_insert_ne; [done|]. intros ->. done.
    - apply insert_nodup; done.
    - intros n. unfold k2, Thread.GetPriority.
      change (thread (set_thread_tree _ k1) n) with (thread k1 n). unfold k1.
      destruct (decide (n = cur_thread)) as [->|Hne].
      + rewrite thread_on_thread_eq. apply Hp.
      + rewrite thread_on_thread_ne by done. apply Hp.
    - intros n. change (thread_tree k2) with
        (Tree.insert (threads k1) cur_thread (thread_tree k)).
      rewrite elem_of_insert.
      change (thread k2 n) with (thread k1 n). unfold k1.
      destruct (decide (n = cur_thread)) as [->|Hne].
      + rewrite thread_on_thread_eq. simpl. tauto.
      + rewrite thread_on_thread_ne by done. rewrite <- Hf. tauto. }
  assert (Inv (on_thread cur_thread (Thread.SetWaitReasonForDebugging Arbitration)
                 (on_thread cur_thread (Thread.SetState Waiting) k2))) as Hinv4.
  { by repeat apply on_thread_Inv. }
  destruct (0 <? timeout); [by apply time_event_Inv|done].
Qed.

Lemma enrolled_binding cur_thread addr timeout k :
  let k' := enrolled cur_thread addr timeout k in
  cur_thread ∈ thread_tree k' ∧
  Thread.IsWaitingForAddressArbiter (thread k' cur_thread) = true ∧
  Thread.GetAddressArbiterKey (thread k' cur_thread) = addr.
Proof.
  cbv zeta. unfold enrolled. cbv zeta.
  set (k1 := on_thread cur_thread (Thread.SetAddressArbiter addr) k).
  set (k2 := set_thread_tree (Tree.insert (threads k1) cur_thread (thread_tree k1)) k1).
  set (k4 := on_thread _ _ (on_thread _ _ k2)).
  assert (thread_tree k4 = Tree.insert (threads k1) cur_thread (thread_tree k1)) as Ht
    by done.
  assert (arbiter_tree (thread k4 cur_thread) = true ∧
          address_arbiter_key (thread k4 cur_thread) = addr) as [Ha Hk].
  { unfold k4. rewrite !thread_on_thread_eq. simpl.
    change (thread k2 cur_thread) with (thread k1 cur_thread). unfold k1.
    by rewrite thread_on_thread_eq. }
  assert (cur_thread ∈ thread_tree k4) as Hin by (rewrite Ht, elem_of_insert; tauto).
  by destruct (0 <? timeout).
Qed.

(** Leaving: a thread that is still bound unlinks itself and clears
    the binding. *)
Lemma resumed_Inv cur_thread k : Inv k → Inv (resumed cur_thread k).2.
Proof.
  intros Hinv. unfold resumed. cbv zeta. cbn [snd].
  apply (proj2 (time_event_Inv cur_thread k)) in Hinv.
  set (k1 := UnscheduleTimeEvent cur_thread k) in *.
  destruct (Thread.IsWaitingForAddressArbiter (thread k1 cur_thread)) eqn:Hw; [|done].
  destruct Hinv as [Hs Hnd Hp Hf]. split.
  - change (thread_tree (on_thread _ _ _)) with (Tree.erase cur_thread (thread_tree k1)).
    apply sorted_filter. eapply sorted_ext; [|exact Hs]. intros n _.
    unfold Tree.node_key, on_thread. simpl.
    destruct (decide (n = cur_thread)) as [->|Hne].
    + by rewrite lookup_total_insert_eq.
    + by rewrite lookup_total_insert_ne.
  - by apply NoDup_filter.
  - intros n. unfold Thread.GetPriority.
    destruct (decide (n = cur_thread)) as [->|Hne].
    + rewrite thread_on_thread_eq. apply Hp.
    + rewrite thread_on_thread_ne by done. apply Hp.
  - intros n.
    change (thread_tree (on_thread _ _ _)) with (Tree.erase cur_thread (thread_tree k1)).
    rewrite elem_of_erase.
    destruct (decide (n = cur_thread)) as [->|Hne].
    + rewrite thread_on_thread_eq. simpl. split; [by intros [? _]|done].
    + rewrite thread_on_thread_ne by done.
      change (thread (set_thread_tree _ k1) n) with (thread k1 n).
      rewrite <- Hf. tauto.
Qed.

Lemma resumed_unbound cur_thread k :
  Inv k →
  (cur_thread ∉ thread_tree (resumed cur_thread k).2) ∧
  Thread.IsWaitingForAddressArbiter (thread (resumed cur_thread k).2 cur_thread) = false.
Proof.
  intros Hinv. pose proof (resumed_Inv cur_thread k Hinv) as [_ _ _ Hf'].
  assert (Thread.IsWaitingForAddressArbiter
            (thread (resumed cur_thread k).2 cur_thread) = false) as Hflag.
  { unfold resumed. cbv zeta. cbn [snd].
    destruct (Thread.IsWaitingForAddressArbiter
                (thread (UnscheduleTimeEvent _ _) _)) eqn:Hw; [|done].
    by rewrite thread_on_thread_eq. }
  split; [|done]. rewrite Hf'. congruence.
Qed.

Lemma WaitIfLessThan_Inv parked addr value decrement timeout k :
  (∀ k', Inv k' → Inv (parked k')) →
  Thread.IsWaitingForAddressArbiter (thread k (current_thread k)) = false →
  Inv k → Inv (WaitIfLessThan parked addr value decrement timeout k).2.
Proof.
  intros Hparked Hcur Hinv. rewrite WaitIfLessThan_code. cbv zeta.
  destruct (Thread.IsTerminationRequested _); [done|].
  set (k1 := on_thread _ _ k).
  assert (Inv k1) as Hinv1 by by apply on_thread_Inv.
  assert (Thread.IsWaitingForAddressArbiter (thread k1 (current_thread k)) = false)
    as Hcur1 by (unfold k1; by rewrite thread_on_thread_eq).
  destruct (if decrement then _ else _) as [[sys uv] ok].
  pose proof (set_system_Inv sys k1 Hinv1) as Hinv2.
  destruct (negb ok); [done|]. destruct (uv >=? value); [done|].
  destruct (timeout =? 0); [done|].
  apply resumed_Inv, Hparked, enrolled_Inv; done.
Qed.

Lemma WaitIfEqual_Inv parked addr value timeout k :
  (∀ k', Inv k' → Inv (parked k')) →
  Thread.IsWaitingForAddressArbiter (thread k (current_thread k)) = false →
  Inv k → Inv (WaitIfEqual parked addr value timeout k).2.
Proof.
  intros Hparked Hcur Hinv. rewrite WaitIfEqual_code. cbv zeta.
  destruct (Thread.IsTerminationRequested _); [done|].
  set (k1 := on_thread _ _ k).
  assert (Inv k1) as Hinv1 by by apply on_thread_Inv.
  assert (Thread.IsWaitingForAddressArbiter (thread k1 (current_thread k)) = false)
    as Hcur1 by (unfold k1; by rewrite thread_on_thread_eq).
  destruct (ReadFromUser _ _ _) as [[sys uv] ok].
  pose proof (set_system_Inv sys k1 Hinv1) as Hinv2.
  destruct (negb ok); [done|]. destruct (negb _); [done|].
  destruct (timeout =? 0); [done|].
  apply resumed_Inv, Hparked, enrolled_Inv; done.
Qed.

(** C8. Every public operation keeps the arbiter well-formed: a thread
    is in the tree iff it is bound to the arbiter, and the tree is in
    order under the keys the threads store (with no thread linked
    twice).  A wait is called by a thread that is not enrolled, and
    whatever runs while the caller is parked keeps the state well-formed
    too.  A wait sets the binding and links the thread under the stored
    key; when a wait returns, its thread is out of the tree and
    unbound. *)
Theorem operations_preserve_Inv k :
  Inv k →
  (∀ addr count, Inv (Signal addr count k).2) ∧
  (∀ addr value count, Inv (SignalAndIncrementIfEqual addr value count k).2) ∧
  (∀ addr value count, Inv (SignalAndModifyByWaitingCountIfEqual addr value count k).2) ∧
  (∀ parked addr value decrement timeout,
     (∀ k', Inv k' → Inv (parked k')) →
     Thread.IsWaitingForAddressArbiter (thread k (current_thread k)) = false →
     Inv (WaitIfLessThan parked addr value decrement timeout k).2) ∧
  (∀ parked addr value timeout,
     (∀ k', Inv k' → Inv (parked k')) →
     Thread.IsWaitingForAddressArbiter (thread k (current_thread k)) = false →
     Inv (WaitIfEqual parked addr value timeout k).2) ∧
  (∀ cur_thread addr timeout,
     Thread.IsWaitingForAddressArbiter (thread k cur_thread) = false →
     let k' := enrolled cur_thread addr timeout k in
     Inv k' ∧ cur_thread ∈ thread_tree k' ∧
     Thread.IsWaitingForAddressArbiter (thread k' cur_thread) = true ∧
     Thread.GetAddressArbiterKey (thread k' cur_thread) = addr) ∧
  (∀ cur_thread,
     let k' := (resumed cur_thread k).2 in
     Inv k' ∧ (cur_thread ∉ thread_tree k') ∧
     Thread.IsWaitingForAddressArbiter (thread k' cur_thread) = false).
Proof.
  intros Hinv. split_and!.
  - intros. by apply Signal_Inv.
  - intros. by apply SignalAndIncrementIfEqual_Inv.
  - intros. by apply SignalAndModifyByWaitingCountIfEqual_Inv.
  - intros. by apply WaitIfLessThan_Inv.
  - intros. by apply WaitIfEqual_Inv.
  - intros cur_thread addr timeout Hcur k'. split; [by apply enrolled_Inv|].
    apply enrolled_binding.
  - intros cur_thread k'. split; [by apply resumed_Inv|]. by apply resumed_unbound.
Qed.

Lemma operations_preserve_Inv_witness :
  Inv (WaitIfEqual (λ k, (Signal 8192 1 k).2) 8192 0 (-1) three_waiters).2.
Proof.
  destruct (operations_preserve_Inv three_waiters three_waiters_Inv)
    as (_ & _ & _ & _ & Hwait & _).
  apply Hwait.
  - intros k' Hk'. by apply Signal_Inv.
  - vm_compute. reflexivity.
Defined.

(** ** The value [SignalAndModifyByWaitingCountIfEqual] stores *)

Lemma at_waiter_sorted k addr it :
  StronglySorted (node_le (threads k)) it →
  Forall (λ n, addr <= address_arbiter_key (thread k n)) it →
  at_waiter k it addr
  = negb (Z.of_nat (length (filter (λ n, address_arbiter_key (thread k n) = addr) it))
          =? 0).
Proof.
  intros Hs Hge. destruct it as [|a it]; [done|]. simpl.
  apply StronglySorted_cons in Hs as [Ha Hs].
  unfold Thread.GetAddressArbiterKey.
  destruct (Z.eqb_spec (address_arbiter_key (thread k a)) addr) as [Heq|Hne].
  - rewrite filter_cons_True by done. done.
  - rewrite filter_cons_False by done.
    apply Forall_cons in Hge as [Hgea _].
    by rewrite (no_waiter_behind k addr a it).
Qed.

(** The counting loop, as far as the test that follows it can tell:
    the count stays below [count] iff the waiters it has walked over do
    not fill the budget. *)
Lemma count_further_sorted k addr count it tmp_num_waiters :
  StronglySorted (node_le (threads k)) it →
  Forall (λ n, addr <= address_arbiter_key (thread k n)) it →
  Int.is_s32 count →
  let further := Z.of_nat (length (filter (λ n, address_arbiter_key (thread k n) = addr) it)) in
  0 <= tmp_num_waiters <= count →
  tmp_num_waiters + further <= Int.max_s32 →
  (count_further k addr count it tmp_num_waiters <? count)
  = (tmp_num_waiters + further <? count).
Proof.
  intros Hs Hge Hcount. cbv zeta. revert tmp_num_waiters.
  induction it as [|a it IH]; intros t Ht Hmax; simpl.
  - by rewrite Z.add_0_r.
  - apply StronglySorted_cons in Hs as [Ha Hs].
    apply Forall_cons in Hge as [Hgea Hge].
    unfold Thread.GetAddressArbiterKey.
    destruct (Z.eqb_spec (address_arbiter_key (thread k a)) addr) as [Heq|Hne].
    + rewrite filter_cons_True in Hmax |- * by done. simpl length in *.
      assert (Int.add t 1 = t + 1) as ->.
      { apply add_no_wrap. unfold Int.is_s32, Int.min_s32, Int.max_s32,
          Int.half_modulus in *. lia. }
      destruct (Z.geb_spec t count) as [Hfull|Hroom].
      * lia.
      * rewrite IH by (done || lia). lia.
    + rewrite filter_cons_False by done.
      rewrite (no_waiter_behind k addr a it) by done.
      simpl. by rewrite Z.add_0_r.
Qed.

(** C3. The value [SignalAndModifyByWaitingCountIfEqual] picks for the
    conditional store, by the number of threads enrolled on [addr]: for
    [count <= 0], [value - 2] with a waiter and [value + 1] without; for
    [count > 0], [value + 1] without a waiter, [value - 1] with at most
    [count] waiters, [value] with more.  The arithmetic is that of
    [s32]; the tree is well-formed and holds fewer than 2^31 threads.
    With a quiet monitor and the cell at [value], this is the value the
    cell holds afterwards. *)
Theorem updated_value_by_waiting_count addr value count k :
  Inv k → Int.is_s32 count →
  Z.of_nat (length (thread_tree k)) <= Int.max_s32 →
  let n := Z.of_nat (length (waiters k addr)) in
  let new_value :=
    if count <=? 0 then (if n =? 0 then Int.add value 1 else Int.sub value 2)
    else if n =? 0 then Int.add value 1
    else if n <=? count then Int.sub value 1
    else value in
  updated_value k (Tree.nfind_light (threads k) (addr, -1) (thread_tree k))
    addr value count = new_value ∧
  (quiet k → cell k addr = value →
   let r := SignalAndModifyByWaitingCountIfEqual addr value count k in
   r.1 = RESULT_SUCCESS ∧
   system r.2 = if value =? new_value then system k
                else committed (system k) addr (Int.to_u32 new_value)).
Proof.
  intros Hinv Hcount Hlen n new_value.
  destruct (nfind_light_waiters k addr Hinv) as (Hw & Hs & Hge).
  set (it := Tree.nfind_light (threads k) (addr, -1) (thread_tree k)) in *.
  assert (updated_value k it addr value count = new_value) as Hnew.
  { unfold updated_value, new_value, n.
    rewrite at_waiter_sorted by done. rewrite <- Hw.
    destruct (Z.leb_spec count 0) as [Hle|Hpos].
    { by destruct (_ =? 0). }
    destruct (Z.eqb_spec (Z.of_nat (length (waiters k addr))) 0) as [Hz|Hnz]; [done|].
    cbn [negb].
    (* the first waiter is under the iterator, the others follow it *)
    destruct it as [|a rest] eqn:Hit.
    { rewrite Hw in Hnz. done. }
    apply StronglySorted_cons in Hs as [Ha Hs].
    apply Forall_cons in Hge as [Hgea Hge].
    destruct (decide (address_arbiter_key (thread k a) = addr)) as [Hkey|Hkey].
    - rewrite filter_cons_True in Hw by done.
      assert (Z.of_nat (length (waiters k addr)) <= Z.of_nat (length (thread_tree k)))
        as Hbound.
      { unfold waiters. pose proof (length_filter
          (λ n0, Thread.GetAddressArbiterKey (thread k n0) = addr) (thread_tree k)). lia. }
      cbn [tail]. rewrite count_further_sorted; try done; [|lia|].
      + rewrite Hw in *. simpl length in *.
        destruct (Z.ltb_spec
                    (0 + Z.of_nat (length (filter
                       (λ n0, address_arbiter_key (thread k n0) = addr) rest))) count),
                 (Z.leb_spec (Z.of_nat (S (length (filter
                       (λ n0, address_arbiter_key (thread k n0) = addr) rest)))) count);
          (done || lia).
      + rewrite Hw in Hbound. simpl length in Hbound. lia.
    - exfalso. apply Hnz. rewrite Hw. rewrite filter_cons_False by done.
      by rewrite (no_waiter_behind k addr a rest). }
  split; [done|].
  intros Hq Hcell r. unfold r. rewrite SignalAndModifyByWaitingCountIfEqual_code.
  cbv zeta. fold it. rewrite Hnew.
  destruct (value =? new_value); cbn [negb].
  - unfold ReadFromUser. fold (cell k addr). rewrite Hcell, Z.eqb_refl.
    split; [done|]. cbn [snd]. rewrite wake_loop_targets.
    by destruct (wake_all_frame (targets (set_system (system k) k) addr count it 0)
                   (set_system (system k) k)) as (-> & _).
  - rewrite UpdateIfEqual_quiet by done. cbv zeta. fold (cell k addr).
    rewrite Hcell, Z.eqb_refl. cbn beta iota. rewrite Z.eqb_refl.
    split; [done|]. cbn [snd]. rewrite wake_loop_targets.
    by destruct (wake_all_frame
                   (targets (set_system (committed (system k) addr (Int.to_u32 new_value)) k)
                      addr count it 0)
                   (set_system (committed (system k) addr (Int.to_u32 new_value)) k))
      as (-> & _).
Qed.

Lemma updated_value_by_waiting_count_witness :
  updated_value three_waiters
    (Tree.nfind_light (threads three_waiters) (8192, -1) (thread_tree three_waiters))
    8192 0 2 = 0.
Proof.
  apply (updated_value_by_waiting_count 8192 0 2 three_waiters three_waiters_Inv).
  - s32_range.
  - vm_compute. discriminate.
Defined.

Lemma two_waiters_Inv : Inv two_waiters.
Proof. apply check_inv_sound. vm_compute. reflexivity. Qed.

(** C7. When the value [SignalAndModifyByWaitingCountIfEqual] computes
    equals [value], the call reads the cell with a plain load and does
    nothing else to user memory or the monitor: the system is as before,
    whatever the other cores have queued.  If the cell holds [value] the
    call succeeds and runs the wake loop from the iterator of the
    lookup, which in a well-formed tree wakes the batch of a signal; if
    not it returns InvalidState and nothing changes. *)
Theorem unchanged_value_reads_only addr value count k :
  let it := Tree.nfind_light (threads k) (addr, -1) (thread_tree k) in
  updated_value k it addr value count = value →
  let r := SignalAndModifyByWaitingCountIfEqual addr value count k in
  system r.2 = system k ∧
  (cell k addr = value →
   r = (RESULT_SUCCESS, wake_loop addr count it 0 k) ∧
   (Inv k → Int.is_s32 count →
    woken r.2 = (woken k ++ batch count (waiters k addr)) ∧
    thread_tree r.2 = filter (λ t, t ∉ batch count (waiters k addr)) (thread_tree k))) ∧
  (cell k addr ≠ value → r = (ResultInvalidState, k)).
Proof.
  intros it Hsame r. unfold r. rewrite SignalAndModifyByWaitingCountIfEqual_code.
  cbv zeta. fold it. rewrite Hsame, Z.eqb_refl. cbn [negb].
  unfold ReadFromUser. fold (cell k addr).
  assert (set_system (system k) k = k) as -> by by destruct k.
  destruct (Z.eqb_spec (cell k addr) value) as [Heq|Hne].
  - split_and!; [|intros _; split; [done|]|done].
    + cbn [snd]. rewrite wake_loop_targets.
      by destruct (wake_all_frame (targets k addr count it 0) k) as (-> & _).
    + intros Hinv Hcount. cbn [snd]. unfold it. rewrite wake_loop_signal by done.
      by destruct (wake_all_frame (batch count (waiters k addr)) k)
        as (_ & _ & _ & -> & -> & _).
  - split_and!; done.
Qed.

Lemma unchanged_value_reads_only_witness :
  let r := SignalAndModifyByWaitingCountIfEqual 20480 10 1 two_waiters in
  r.1 = RESULT_SUCCESS ∧ Read32 (system r.2) 20480 = 10 ∧
  woken r.2 = [1%nat] ∧ thread_tree r.2 = [2%nat].
Proof.
  destruct (unchanged_value_reads_only 20480 10 1 two_waiters eq_refl)
    as (Hsys & Hhit & _).
  destruct (Hhit eq_refl) as (Hr & Hwake).
  destruct (Hwake two_waiters_Inv ltac:(s32_range)) as (Hwoken & Htree).
  cbv zeta. rewrite Hsys, Hwoken, Htree, Hr.
  vm_compute. done.
Defined.

(** ** [SignalAndIncrementIfEqual] *)

Lemma SignalAndIncrementIfEqual_quiet addr value count k :
  quiet k →
  let r := SignalAndIncrementIfEqual addr value count k in
  (r.1 = RESULT_SUCCESS ↔ cell k addr = value) ∧
  (r.1 = RESULT_SUCCESS → Read32 (system r.2) addr = (value + 1) mod Int.modulus).
Proof.
  intros Hq r. unfold r. rewrite SignalAndIncrementIfEqual_code.
  rewrite UpdateIfEqual_quiet by done. cbv zeta. fold (cell k addr).
  destruct (Z.eqb_spec (cell k addr) value) as [Heq|Hne]; cbn beta iota.
  - rewrite Heq, Z.eqb_refl. split; [done|]. intros _. cbn [snd].
    rewrite wake_loop_targets.
    match goal with
    | |- context [foldl _ ?k0 ?ws] =>
        destruct (wake_all_frame ws k0) as (-> & _)
    end.
    change (system (set_system ?s _)) with s.
    rewrite Read32_committed. apply to_u32_to_s32.
  - destruct (Z.eqb_spec (cell k addr) value); [done|]. split; [|done].
    split; [done|]. intros. done.
Qed.

(** C4. When the cell the operation loads differs from [value],
    [SignalAndIncrementIfEqual] returns InvalidState, wakes nobody and
    stores nothing: tree and threads are as before, and memory differs
    from before by the stores of the other cores only (not at all when
    the monitor is quiet).  When no other core interferes the call
    succeeds exactly if the cell held [value], and then the cell holds
    [value + 1] (as a 32-bit value). *)
Theorem SignalAndIncrementIfEqual_checks_cell addr value count k :
  let r := SignalAndIncrementIfEqual addr value count k in
  (cell k addr ≠ value →
   r.1 = ResultInvalidState ∧
   thread_tree r.2 = thread_tree k ∧ threads r.2 = threads k ∧ woken r.2 = woken k ∧
   memory (system r.2) = memory (ExclusiveRead32 (system k) addr).2 ∧
   (quiet k → memory (system r.2) = memory (system k))) ∧
  (quiet k →
   (r.1 = RESULT_SUCCESS ↔ cell k addr = value) ∧
   (r.1 = RESULT_SUCCESS →
    Read32 (system r.2) addr = (value + 1) mod Int.modulus)).
Proof.
  intros r. unfold r. rewrite SignalAndIncrementIfEqual_code. split.
  - intros Hne.
    pose proof (UpdateIfEqual_out (system k) 0 addr value (Int.add value 1)) as Hout.
    pose proof (UpdateIfEqual_mismatch (system k) 0 addr value (Int.add value 1) Hne)
      as Hsys.
    destruct (UpdateIfEqual _ _ _ _ _) as [[sys uv] ok]. cbn [fst snd] in *.
    subst uv sys. cbv zeta. fold (cell k addr).
    destruct (Z.eqb_spec (cell k addr) value); [done|].
    split_and!; try done.
    intros Hq. by rewrite (ExclusiveRead32_quiet _ _ Hq).
  - intros Hq. rewrite <- SignalAndIncrementIfEqual_code.
    by apply SignalAndIncrementIfEqual_quiet.
Qed.

(** The cell at 0x3000 holds 5. *)
Lemma SignalAndIncrementIfEqual_checks_cell_witness :
  let r := SignalAndIncrementIfEqual 12288 4 1 three_waiters in
  r.1 = ResultInvalidState ∧ thread_tree r.2 = thread_tree three_waiters ∧
  Read32 (system r.2) 12288 = 5.
Proof.
  destruct (SignalAndIncrementIfEqual_checks_cell 12288 4 1 three_waiters)
    as (Hmiss & _).
  destruct Hmiss as (Hr & Htree & _ & _ & _ & Hmem).
  { vm_compute. discriminate. }
  cbv zeta. split_and!; [done|done|].
  unfold Read32. rewrite Hmem by reflexivity. vm_compute. reflexivity.
Defined.

(** ** Early returns of the wait operations *)

Lemma arbiter_unchanged_refl k : arbiter_unchanged k k.
Proof. by repeat split. Qed.

Lemma arbiter_unchanged_timed_out sys cur_thread k :
  arbiter_unchanged k
    (set_system sys (on_thread cur_thread (Thread.SetSyncedObject None ResultTimedOut) k)).
Proof.
  repeat split;
    change (thread (set_system sys ?k0) n) with (thread k0 n);
    (destruct (decide (n = cur_thread)) as [->|Hne];
     [by rewrite thread_on_thread_eq | by rewrite thread_on_thread_ne]).
Qed.

(** What the wait reads from user memory, whichever helper it uses. *)
Lemma wait_user_value (decrement : bool) sys addr value :
  ∃ sys', (if decrement then DecrementIfLessThan sys 0 addr value
           else ReadFromUser sys 0 addr)
          = (sys', Int.to_s32 (Read32 sys addr), true).
Proof.
  destruct decrement.
  - pose proof (DecrementIfLessThan_out sys 0 addr value) as Hout.
    pose proof (DecrementIfLessThan_true sys 0 addr value) as Hok.
    destruct (DecrementIfLessThan _ _ _ _) as [[sys' uv] ok]. simpl in *. subst.
    by exists sys'.
  - by exists sys.
Qed.

Ltac early_case :=
  match goal with
  | |- _ → arbiter_unchanged _ _ ∧ _ =>
      intros _; split;
      [first [apply arbiter_unchanged_refl | apply arbiter_unchanged_timed_out] | done]
  | |- _ => done || lia || (intros; lia) || (intros; congruence)
  end.

(** C5. The early returns of both waits, in the order of their tests: a
    thread that is being terminated gets TerminationRequested and the
    state is untouched (no access to user memory); otherwise a cell that
    does not meet the condition gives InvalidState, also for a zero
    timeout; otherwise a zero timeout gives TimedOut.  On each of these
    returns the thread is not enrolled: tree, time events and bindings
    are as before.  (The test of the helper's [bool] stands between the
    first and the second; the helpers never return [false].) *)
Theorem wait_early_returns parked addr value timeout k :
  let terminating := Thread.IsTerminationRequested (thread k (current_thread k)) in
  (∀ decrement,
     let r := WaitIfLessThan parked addr value decrement timeout k in
     (terminating = true → r = (ResultTerminationRequested, k)) ∧
     (terminating = false → value <= cell k addr → r.1 = ResultInvalidState) ∧
     (terminating = false → cell k addr < value → timeout = 0 → r.1 = ResultTimedOut) ∧
     (terminating = true ∨ value <= cell k addr ∨ timeout = 0 →
      arbiter_unchanged k r.2 ∧ r.1 ≠ RESULT_SUCCESS)) ∧
  (let r := WaitIfEqual parked addr value timeout k in
   (terminating = true → r = (ResultTerminationRequested, k)) ∧
   (terminating = false → cell k addr ≠ value → r.1 = ResultInvalidState) ∧
   (terminating = false → cell k addr = value → timeout = 0 → r.1 = ResultTimedOut) ∧
   (terminating = true ∨ cell k addr ≠ value ∨ timeout = 0 →
    arbiter_unchanged k r.2 ∧ r.1 ≠ RESULT_SUCCESS)).
Proof.
  intros terminating. split.
  - intros decrement r. unfold r. rewrite WaitIfLessThan_code. cbv zeta.
    fold terminating.
    destruct terminating; [split_and!; early_case|].
    destruct (wait_user_value decrement
                (system (on_thread (current_thread k)
                           (Thread.SetSyncedObject None ResultTimedOut) k))
                addr value) as [sys' ->].
    change (Int.to_s32 (Read32 _ addr)) with (cell k addr). cbn [negb].
    destruct (Z.geb_spec (cell k addr) value) as [Hge|Hlt];
      [split_and!; early_case|].
    destruct (Z.eqb_spec timeout 0) as [Hz|Hnz]; [split_and!; early_case|].
    split_and!; try done; try lia; intros [?|[?|?]]; done || lia.
  - intros r. unfold r. rewrite WaitIfEqual_code. cbv zeta. fold terminating.
    destruct terminating; [split_and!; early_case|].
    unfold ReadFromUser.
    change (Int.to_s32 (Read32 _ addr)) with (cell k addr). cbn [negb].
    destruct (Z.eqb_spec value (cell k addr)) as [Heq|Hne]; cbn [negb];
      [|split_and!; early_case].
    destruct (Z.eqb_spec timeout 0) as [Hz|Hnz]; [split_and!; early_case|].
    split_and!; try done; intros [?|[?|?]]; done.
Qed.

Lemma wait_early_returns_witness :
  WaitIfLessThan (λ k, k) 12288 3 true 0 terminating_caller
  = (ResultTerminationRequested, terminating_caller) ∧
  (WaitIfEqual (λ k, k) 12288 4 0 three_waiters).1 = ResultInvalidState.
Proof.
  split.
  - destruct (wait_early_returns (λ k, k) 12288 3 0 terminating_caller) as (Hlt & _).
    destruct (Hlt true) as (Hterm & _). apply Hterm. vm_compute. reflexivity.
  - destruct (wait_early_returns (λ k, k) 12288 4 0 three_waiters) as (_ & Heq).
    destruct Heq as (_ & Hstate & _). apply Hstate.
    + vm_compute. reflexivity.
    + vm_compute. discriminate.
Defined.

(** C6. [WaitIfLessThan] with [decrement] and a zero timeout, called by
    a thread that is not being terminated while no other core stores to
    the cell: with the cell [v] below the bound the call returns
    TimedOut without parking or enrolling the thread, and the cell holds
    [v - 1] (as a 32-bit value); otherwise it returns InvalidState and
    memory is as before. *)
Theorem decrement_then_timed_out parked addr bound k :
  quiet k →
  Thread.IsTerminationRequested (thread k (current_thread k)) = false →
  let v := cell k addr in
  let r := WaitIfLessThan parked addr bound true 0 k in
  let k1 := on_thread (current_thread k) (Thread.SetSyncedObject None ResultTimedOut) k in
  (v < bound →
   r = (ResultTimedOut,
        set_system (committed (system k) addr (Int.to_u32 (Int.sub v 1))) k1) ∧
   Read32 (system r.2) addr = (v - 1) mod Int.modulus ∧
   arbiter_unchanged k r.2) ∧
  (bound <= v →
   r = (ResultInvalidState, set_system (ClearExclusive (system k)) k1) ∧
   memory (system r.2) = memory (system k) ∧
   arbiter_unchanged k r.2).
Proof.
  intros Hq Hterm v r k1. unfold r. rewrite WaitIfLessThan_code. cbv zeta.
  rewrite Hterm. fold k1.
  change (system k1) with (system k).
  rewrite DecrementIfLessThan_quiet by done. cbv zeta. fold (cell k addr). fold v.
  destruct (Z.ltb_spec v bound) as [Hlt|Hge]; cbn [negb].
  - destruct (Z.geb_spec v bound); [lia|]. cbn [Z.eqb].
    split; [|lia]. intros _. split_and!; [done| |apply arbiter_unchanged_timed_out].
    cbn [snd]. change (system (set_system ?s _)) with s.
    rewrite Read32_committed. apply to_u32_to_s32.
  - destruct (Z.geb_spec v bound); [|lia].
    split; [lia|]. intros _. split_and!; [done|done|apply arbiter_unchanged_timed_out].
Qed.

Lemma decrement_then_timed_out_witness :
  let r := WaitIfLessThan (λ k, k) 16384 5 true 0 decrement_scene in
  r.1 = ResultTimedOut ∧ Read32 (system r.2) 16384 = 2 ∧ thread_tree r.2 = [].
Proof.
  destruct (decrement_then_timed_out (λ k, k) 16384 5 decrement_scene eq_refl eq_refl)
    as (Hbelow & _).
  destruct Hbelow as (Hr & Hcell & Htree & _).
  { vm_compute. reflexivity. }
  cbv zeta. rewrite Hcell, Htree, Hr. vm_compute. done.
Defined.

(** ** Result codes *)

Lemma enrolled_wait_result cur_thread addr timeout k :
  wait_result (thread (enrolled cur_thread addr timeout k) cur_thread)
  = wait_result (thread k cur_thread).
Proof.
  unfold enrolled. cbv zeta.
  set (k1 := on_thread cur_thread (Thread.SetAddressArbiter addr) k).
  set (k2 := set_thread_tree _ k1).
  assert (wait_result (thread (on_thread cur_thread
            (Thread.SetWaitReasonForDebugging Arbitration)
            (on_thread cur_thread (Thread.SetState Waiting) k2)) cur_thread)
          = wait_result (thread k cur_thread)) as H.
  { rewrite !thread_on_thread_eq. simpl.
    change (thread k2 cur_thread) with (thread k1 cur_thread). unfold k1.
    by rewrite thread_on_thread_eq. }
  by destruct (0 <? timeout).
Qed.

Lemma resumed_result cur_thread k :
  (resumed cur_thread k).1 = wait_result (thread k cur_thread).
Proof.
  unfold resumed. cbv zeta. cbn [fst]. unfold Thread.GetWaitResult.
  change (thread (UnscheduleTimeEvent cur_thread k) cur_thread)
    with (thread k cur_thread).
  destruct (Thread.IsWaitingForAddressArbiter (thread k cur_thread)); [|done].
  by rewrite thread_on_thread_eq.
Qed.

(** C9. No public operation returns InvalidCurrentMemory: the three
    helpers return [true] on every input, so the branches that would
    return it are never taken.  A wait that has parked returns the wait
    result stored in its thread; it is TimedOut when the thread parks,
    and whoever runs meanwhile is taken not to store
    InvalidCurrentMemory there. *)
Theorem never_invalid_current_memory :
  (∀ system out address, (ReadFromUser system out address).2 = true) ∧
  (∀ system out address value,
     (DecrementIfLessThan system out address value).2 = true) ∧
  (∀ system out address value new_value,
     (UpdateIfEqual system out address value new_value).2 = true) ∧
  (∀ addr count k, (Signal addr count k).1 ≠ ResultInvalidCurrentMemory) ∧
  (∀ addr value count k,
     (SignalAndIncrementIfEqual addr value count k).1 ≠ ResultInvalidCurrentMemory) ∧
  (∀ addr value count k,
     (SignalAndModifyByWaitingCountIfEqual addr value count k).1
     ≠ ResultInvalidCurrentMemory) ∧
  (∀ parked addr value decrement timeout k,
     (∀ k', wait_result (thread k' (current_thread k)) ≠ ResultInvalidCurrentMemory →
            wait_result (thread (parked k') (current_thread k))
            ≠ ResultInvalidCurrentMemory) →
     (WaitIfLessThan parked addr value decrement timeout k).1
     ≠ ResultInvalidCurrentMemory) ∧
  (∀ parked addr value timeout k,
     (∀ k', wait_result (thread k' (current_thread k)) ≠ ResultInvalidCurrentMemory →
            wait_result (thread (parked k') (current_thread k))
            ≠ ResultInvalidCurrentMemory) →
     (WaitIfEqual parked addr value timeout k).1 ≠ ResultInvalidCurrentMemory).
Proof.
  split_and!.
  - apply ReadFromUser_true.
  - apply DecrementIfLessThan_true.
  - apply UpdateIfEqual_true.
  - done.
  - intros. rewrite SignalAndIncrementIfEqual_code.
    destruct (UpdateIfEqual _ _ _ _ _) as [[sys uv] ok]. cbv zeta.
    by destruct (uv =? value).
  - intros. rewrite SignalAndModifyByWaitingCountIfEqual_code. cbv zeta.
    destruct (if negb _ then _ else _) as [[sys uv] ok].
    by destruct (uv =? value).
  - intros parked addr value decrement timeout k Hparked.
    rewrite WaitIfLessThan_code. cbv zeta.
    destruct (Thread.IsTerminationRequested _); [done|].
    destruct (wait_user_value decrement
                (system (on_thread (current_thread k)
                           (Thread.SetSyncedObject None ResultTimedOut) k))
                addr value) as [sys' ->]. cbn [negb].
    destruct (_ >=? value); [done|]. destruct (timeout =? 0); [done|].
    rewrite resumed_result. apply Hparked. rewrite enrolled_wait_result.
    change (thread (set_system sys' ?k0) ?n) with (thread k0 n).
    by rewrite thread_on_thread_eq.
  - intros parked addr value timeout k Hparked.
    rewrite WaitIfEqual_code. cbv zeta.
    destruct (Thread.IsTerminationRequested _); [done|].
    unfold ReadFromUser. cbn [negb].
    destruct (negb _); [done|]. destruct (timeout =? 0); [done|].
    rewrite resumed_result. apply Hparked. rewrite enrolled_wait_result.
    change (thread (set_system ?s ?k0) ?n) with (thread k0 n).
    by rewrite thread_on_thread_eq.
Qed.

Lemma never_invalid_current_memory_witness :
  (WaitIfEqual (λ k, (Signal 8192 1 k).2) 8192 0 (-1) three_waiters).1
  ≠ ResultInvalidCurrentMemory.
Proof.
  destruct never_invalid_current_memory as (_ & _ & _ & _ & _ & _ & _ & Hwait).
  apply Hwait. intros k' Hk'.
  unfold Signal, call, mbind, M_bind, nfind_light, get, modify, Return. cbn [snd].
  rewrite wake_loop_targets.
  generalize (targets k' 8192 1
                (Tree.nfind_light (threads k') (8192, -1) (thread_tree k')) 0).
  intros ws. revert k' Hk'. induction ws as [|w ws IH]; intros k' Hk'; [done|].
  cbn [foldl]. apply IH.
  destruct (decide (current_thread three_waiters = w)) as [<-|Hne].
  - rewrite thread_wake_target_eq.
    by destruct (woken_thread_fields (thread k' (current_thread three_waiters)))
      as (-> & _).
  - unfold thread. rewrite lookup_total_alt, thread_wake_target_ne by done.
    by rewrite <- lookup_total_alt.
Defined.

(** ** Wrap-around *)

(** C10. The arithmetic on the cell wraps as 32-bit two's complement:
    [DecrementIfLessThan] stores [(v - 1) mod 2^32], so a cell at -2^31
    below the bound ends at 2^31 - 1; [value + 1] in
    [SignalAndIncrementIfEqual] is -2^31 for [value = 2^31 - 1], and this
    is what the cell then holds.  (No other core interferes.) *)
Theorem cell_arithmetic_wraps :
  (∀ system out address value,
     others system = [] →
     Int.to_s32 (Read32 system address) < value →
     Read32 (DecrementIfLessThan system out address value).1.1 address
     = (Int.to_s32 (Read32 system address) - 1) mod Int.modulus) ∧
  (∀ system out address value,
     others system = [] →
     Int.to_s32 (Read32 system address) = Int.min_s32 → Int.min_s32 < value →
     Read32 (DecrementIfLessThan system out address value).1.1 address
     = Int.max_s32) ∧
  Int.add Int.max_s32 1 = Int.min_s32 ∧
  (∀ addr count k,
     quiet k → cell k addr = Int.max_s32 →
     let r := SignalAndIncrementIfEqual addr Int.max_s32 count k in
     r.1 = RESULT_SUCCESS ∧ cell r.2 addr = Int.min_s32).
Proof.
  assert (∀ system out address value,
            others system = [] →
            Int.to_s32 (Read32 system address) < value →
            Read32 (DecrementIfLessThan system out address value).1.1 address
            = (Int.to_s32 (Read32 system address) - 1) mod Int.modulus) as Hdec.
  { intros system out address value Hq Hlt.
    rewrite DecrementIfLessThan_quiet by done. cbv zeta.
    destruct (Z.ltb_spec (Int.to_s32 (Read32 system address)) value); [|lia].
    cbn [fst]. rewrite Read32_committed. apply to_u32_to_s32. }
  split_and!.
  - exact Hdec.
  - intros system out address value Hq Hmin Hlt.
    rewrite Hdec by (done || lia). rewrite Hmin. vm_compute. reflexivity.
  - vm_compute. reflexivity.
  - intros addr count k Hq Hcell r.
    destruct (SignalAndIncrementIfEqual_quiet addr Int.max_s32 count k Hq)
      as (Hiff & Hstored).
    assert (r.1 = RESULT_SUCCESS) as Hr by by apply Hiff.
    split; [done|]. unfold cell. fold r in Hstored. rewrite Hstored by done.
    vm_compute. reflexivity.
Qed.

Lemma cell_arithmetic_wraps_witness :
  Read32 (DecrementIfLessThan lowest_cell 0 16384 0).1.1 16384 = 2147483647.
Proof.
  destruct cell_arithmetic_wraps as (Hdec & _).
  rewrite Hdec; [|reflexivity|vm_compute; reflexivity].
  vm_compute. reflexivity.
Defined.

(** ** A store that fails once *)

(** C2. After a failed store the helpers do restart, but the value they
    output is the one the first attempt loaded, not the one the
    restarted attempt loaded: the frame of the first attempt assigns
    [*out] after the nested call has, so the output is the first load
    on every input.  With a cell at 3, bound 5 and a
    foreign store of 7 in between, [DecrementIfLessThan] outputs 3 while
    the attempt that ends the operation saw 7 (the wording of the design
    document gives 7); with a foreign store of 1 it outputs 3 and stores
    0, which is 1 - 1.  [UpdateIfEqual] on a cell at 4 with expected 4
    and a foreign store of 9 outputs 4 and stores nothing, so
    [SignalAndIncrementIfEqual] returns Success with the cell at 9. *)
Theorem stale_value_after_retry :
  (∀ system out address value,
     (DecrementIfLessThan system out address value).1.2
     = Int.to_s32 (Read32 system address)) ∧
  (∀ system out address value new_value,
     (UpdateIfEqual system out address value new_value).1.2
     = Int.to_s32 (Read32 system address)) ∧
  (DecrementIfLessThan (raced_to 7) 0 16384 5).1.2 = 3 ∧
  Read32 (DecrementIfLessThan (raced_to 7) 0 16384 5).1.1 16384 = 7 ∧
  (DecrementIfLessThan_spec (raced_to 7) 16384 5).1.2 = 7 ∧
  (DecrementIfLessThan (raced_to 1) 0 16384 5).1.2 = 3 ∧
  Read32 (DecrementIfLessThan (raced_to 1) 0 16384 5).1.1 16384 = 0 ∧
  (DecrementIfLessThan_spec (raced_to 1) 16384 5).1.2 = 1 ∧
  (UpdateIfEqual (system raced_signal) 0 12288 4 5).1.2 = 4 ∧
  Read32 (UpdateIfEqual (system raced_signal) 0 12288 4 5).1.1 12288 = 9 ∧
  (UpdateIfEqual_spec (system raced_signal) 12288 4 5).1.2 = 9 ∧
  (SignalAndIncrementIfEqual 12288 4 1 raced_signal).1 = RESULT_SUCCESS ∧
  cell (SignalAndIncrementIfEqual 12288 4 1 raced_signal).2 12288 = 9.
Proof.
  split; [apply DecrementIfLessThan_out|]. split; [apply UpdateIfEqual_out|].
  vm_compute. repeat split.
Qed.

(** * Further properties *)

(** ** The helpers under any schedule of foreign stores *)

Ltac use_write_result :=
  match goal with
  | e : ExclusiveWrite32 _ _ _ = _ |- _ =>
      let e' := fresh "Hwr" in
      pose proof e as e'; unfold ExclusiveWrite32 in e';
      case_bool_decide; [|discriminate e']; injection e' as <-
  end.

Lemma DecrementIfLessThan_releases system out address value :
  exclusive (DecrementIfLessThan system out address value).1.1 = None.
Proof.
  funelim (DecrementIfLessThan system out address value).
  - done.
  - by use_write_result.
  - by destruct (DecrementIfLessThan system2 out address value) as [[? ?] ?].
Qed.

Lemma UpdateIfEqual_releases system out address value new_value :
  exclusive (UpdateIfEqual system out address value new_value).1.1 = None.
Proof.
  funelim (UpdateIfEqual system out address value new_value).
  - done.
  - by use_write_result.
  - by destruct (UpdateIfEqual system2 out address value new_value) as [[? ?] ?].
Qed.

(** X1. Whatever the other cores do, the two read-modify-write helpers
    return with no reservation held on the monitor: they end either in
    a store that went through or in [ClearExclusive]. *)
Theorem helpers_release_reservation :
  (∀ system out address value,
     exclusive (DecrementIfLessThan system out address value).1.1 = None) ∧
  (∀ system out address value new_value,
     exclusive (UpdateIfEqual system out address value new_value).1.1 = None).
Proof. split; [apply DecrementIfLessThan_releases | apply UpdateIfEqual_releases]. Qed.

Lemma DecrementIfLessThan_spec_code system addr bound :
  DecrementIfLessThan_spec system addr bound
  = let '(v, system1) := ExclusiveRead32 system addr in
    if Int.to_s32 v <? bound then
      let '(stored, system2) :=
        ExclusiveWrite32 system1 addr (Int.to_u32 (Int.sub (Int.to_s32 v) 1)) in
      if negb stored then DecrementIfLessThan_spec system2 addr bound
      else (system2, Int.to_s32 v, true)
    else (ClearExclusive system1, Int.to_s32 v, true).
Proof.
  funelim (DecrementIfLessThan_spec system addr bound);
    unfold ExclusiveRead32; cbv zeta; cbv beta iota; use_branch_equations;
    reflexivity.
Qed.

Lemma UpdateIfEqual_spec_code system addr expected new_value :
  UpdateIfEqual_spec system addr expected new_value
  = let '(v, system1) := ExclusiveRead32 system addr in
    if Int.to_s32 v =? expected then
      let '(stored, system2) :=
        ExclusiveWrite32 system1 addr (Int.to_u32 new_value) in
      if negb stored then UpdateIfEqual_spec system2 addr expected new_value
      else (system2, Int.to_s32 v, true)
    else (ClearExclusive system1, Int.to_s32 v, true).
Proof.
  funelim (UpdateIfEqual_spec system addr expected new_value);
    unfold ExclusiveRead32; cbv zeta; cbv beta iota; use_branch_equations;
    reflexivity.
Qed.

Lemma DecrementIfLessThan_system_as_worded system out address value :
  (DecrementIfLessThan system out address value).1.1
  = (DecrementIfLessThan_spec system address value).1.1.
Proof.
  funelim (DecrementIfLessThan system out address value);
    rewrite DecrementIfLessThan_spec_code; unfold ExclusiveRead32; cbv zeta;
    cbv beta iota; use_branch_equations; cbn [negb]; try done.
  match goal with IH : _ = (DecrementIfLessThan_spec _ _ _).1.1 |- _ => rewrite <- IH end.
  by destruct (DecrementIfLessThan system2 out address value) as [[? ?] ?].
Qed.

Lemma UpdateIfEqual_system_as_worded system out address value new_value :
  (UpdateIfEqual system out address value new_value).1.1
  = (UpdateIfEqual_spec system address value new_value).1.1.
Proof.
  funelim (UpdateIfEqual system out address value new_value);
    rewrite UpdateIfEqual_spec_code; unfold ExclusiveRead32; cbv zeta;
    cbv beta iota; use_branch_equations; cbn [negb]; try done.
  match goal with IH : _ = (UpdateIfEqual_spec _ _ _ _).1.1 |- _ => rewrite <- IH end.
  by destruct (UpdateIfEqual system2 out address value new_value) as [[? ?] ?].
Qed.

(** X2. What the helpers do to memory and monitor is what restarting
    from the load does, under every schedule of foreign stores: the
    value stored is computed from the load of the attempt whose store
    goes through.  Only the value they output can differ, and it does
    not when no store fails. *)
Theorem helpers_store_like_a_restart :
  (∀ system out address value,
     (DecrementIfLessThan system out address value).1.1
     = (DecrementIfLessThan_spec system address value).1.1 ∧
     (others system = [] →
      DecrementIfLessThan system out address value
      = DecrementIfLessThan_spec system address value)) ∧
  (∀ system out address value new_value,
     (UpdateIfEqual system out address value new_value).1.1
     = (UpdateIfEqual_spec system address value new_value).1.1 ∧
     (others system = [] →
      UpdateIfEqual system out address value new_value
      = UpdateIfEqual_spec system address value new_value)).
Proof.
  split.
  - intros system out address value.
    split; [apply DecrementIfLessThan_system_as_worded|].
    intros Hq. rewrite DecrementIfLessThan_quiet by done.
    rewrite DecrementIfLessThan_spec_code, (ExclusiveRead32_quiet _ _ Hq).
    cbv zeta. destruct (_ <? value); [|by rewrite <- Hq].
    unfold ExclusiveWrite32. cbn [exclusive memory others].
    rewrite bool_decide_eq_true_2 by done. cbn [negb]. unfold committed.
    by rewrite Hq.
  - intros system out address value new_value.
    split; [apply UpdateIfEqual_system_as_worded|].
    intros Hq. rewrite UpdateIfEqual_quiet by done.
    rewrite UpdateIfEqual_spec_code, (ExclusiveRead32_quiet _ _ Hq).
    cbv zeta. destruct (_ =? value); [|by rewrite <- Hq].
    unfold ExclusiveWrite32. cbn [exclusive memory others].
    rewrite bool_decide_eq_true_2 by done. cbn [negb]. unfold committed.
    by rewrite Hq.
Qed.

Lemma helpers_store_like_a_restart_witness :
  DecrementIfLessThan (system decrement_scene) 0 16384 5
  = DecrementIfLessThan_spec (system decrement_scene) 16384 5.
Proof.
  destruct helpers_store_like_a_restart as (Hdec & _).
  destruct (Hdec (system decrement_scene) 0 16384 5) as (_ & Hq).
  apply Hq. reflexivity.
Defined.

Lemma foldl_foreign_store_frame a window system :
  Forall (λ w, store_addr w ≠ a) window →
  memory (foldl foreign_store system window) !! a = memory system !! a.
Proof.
  revert system. induction window as [|w window IH]; intros system Hw; [done|].
  apply Forall_cons in Hw as [Hwa Hw]. cbn [foldl]. rewrite IH by done.
  cbn [foreign_store memory]. by rewrite lookup_insert_ne.
Qed.

(** After the exclusive load, memory away from the stores of the
    window is as before, and the windows still to come are the rest. *)
Lemma ExclusiveRead32_frame a system address :
  Forall (Forall (λ w, store_addr w ≠ a)) (others system) →
  let system1 := (ExclusiveRead32 system address).2 in
  memory system1 !! a = memory system !! a ∧
  Forall (Forall (λ w, store_addr w ≠ a)) (others system1).
Proof.
  intros Hsched. unfold ExclusiveRead32, interfere. cbn [snd others memory exclusive].
  destruct (others system) as [|window rest] eqn:Hoth.
  - cbn [memory others]. split; [done|constructor].
  - apply Forall_cons in Hsched as [Hw Hrest].
    rewrite foldl_foreign_store_frame by done.
    by rewrite foldl_foreign_store_others.
Qed.

Lemma ExclusiveWrite32_frame a system address value :
  a ≠ address →
  memory (ExclusiveWrite32 system address value).2 !! a = memory system !! a ∧
  others (ExclusiveWrite32 system address value).2 = others system.
Proof.
  intros Hne. unfold ExclusiveWrite32. case_bool_decide; cbn [snd memory others];
    [by rewrite lookup_insert_ne|done].
Qed.

Lemma DecrementIfLessThan_frame a system out address value :
  a ≠ address →
  Forall (Forall (λ w, store_addr w ≠ a)) (others system) →
  memory (DecrementIfLessThan system out address value).1.1 !! a = memory system !! a.
Proof.
  intros Hne. funelim (DecrementIfLessThan system out address value); intros Hsched;
    destruct (ExclusiveRead32_frame a system0 address Hsched) as (Hmem & Hrest);
    unfold ExclusiveRead32 in Hmem, Hrest; cbn [snd] in Hmem, Hrest.
  - done.
  - match goal with
    | e : ExclusiveWrite32 ?s ?ad ?v = _ |- _ =>
        destruct (ExclusiveWrite32_frame a s ad v Hne) as (Hw & _); rewrite e in Hw
    end.
    cbn [snd] in Hw. cbn [finish fst]. by rewrite Hw.
  - match goal with
    | e : ExclusiveWrite32 ?s ?ad ?v = _ |- _ =>
        destruct (ExclusiveWrite32_frame a s ad v Hne) as (Hw & Ho); rewrite e in Hw, Ho
    end.
    cbn [snd] in Hw, Ho.
    match goal with
    | IH : ∀ a : Z, _ |- _ =>
        specialize (IH a Hne); rewrite Ho in IH; specialize (IH Hrest)
    end.
    destruct (DecrementIfLessThan system2 out address value) as [[? ?] ?].
    cbn [finish fst] in *. congruence.
Qed.

Lemma UpdateIfEqual_frame a system out address value new_value :
  a ≠ address →
  Forall (Forall (λ w, store_addr w ≠ a)) (others system) →
  memory (UpdateIfEqual system out address value new_value).1.1 !! a
  = memory system !! a.
Proof.
  intros Hne. funelim (UpdateIfEqual system out address value new_value);
    intros Hsched;
    destruct (ExclusiveRead32_frame a system0 address Hsched) as (Hmem & Hrest);
    unfold ExclusiveRead32 in Hmem, Hrest; cbn [snd] in Hmem, Hrest.
  - done.
  - match goal with
    | e : ExclusiveWrite32 ?s ?ad ?v = _ |- _ =>
        destruct (ExclusiveWrite32_frame a s ad v Hne) as (Hw & _); rewrite e in Hw
    end.
    cbn [snd] in Hw. cbn [finish fst]. by rewrite Hw.
  - match goal with
    | e : ExclusiveWrite32 ?s ?ad ?v = _ |- _ =>
        destruct (ExclusiveWrite32_frame a s ad v Hne) as (Hw & Ho); rewrite e in Hw, Ho
    end.
    cbn [snd] in Hw, Ho.
    match goal with
    | IH : ∀ a : Z, _ |- _ =>
        specialize (IH a Hne); rewrite Ho in IH; specialize (IH Hrest)
    end.
    destruct (UpdateIfEqual system2 out address value new_value) as [[? ?] ?].
    cbn [finish fst] in *. congruence.
Qed.

(** X3. The helpers write the cell they are called on and no other:
    a cell at another address that no other core stores to holds
    after the call what it held before, however often the store to
    [address] has to be retried.  [ReadFromUser] writes nothing. *)
Theorem helpers_write_one_cell a address :
  a ≠ address →
  (∀ system out value,
     Forall (Forall (λ w, store_addr w ≠ a)) (others system) →
     Read32 (DecrementIfLessThan system out address value).1.1 a = Read32 system a) ∧
  (∀ system out value new_value,
     Forall (Forall (λ w, store_addr w ≠ a)) (others system) →
     Read32 (UpdateIfEqual system out address value new_value).1.1 a = Read32 system a) ∧
  (∀ system out, (ReadFromUser system out address).1.1 = system).
Proof.
  intros Hne. split_and!.
  - intros. unfold Read32. by rewrite DecrementIfLessThan_frame.
  - intros. unfold Read32. by rewrite UpdateIfEqual_frame.
  - done.
Qed.

Lemma helpers_write_one_cell_witness :
  Read32 (DecrementIfLessThan (raced_to 1) 0 16384 5).1.1 8192 = Read32 (raced_to 1) 8192.
Proof.
  destruct (helpers_write_one_cell 8192 16384) as (Hdec & _); [done|].
  apply Hdec. vm_compute. repeat constructor; discriminate.
Defined.

(** ** The signal operations side by side *)

Lemma wake_target_set_system sys target k :
  wake_target target (set_system sys k) = set_system sys (wake_target target k).
Proof. by rewrite !wake_target_eq. Qed.

(** The loop neither reads nor writes the system. *)
Lemma wake_loop_set_system sys addr count it num_waiters k :
  wake_loop addr count it num_waiters (set_system sys k)
  = set_system sys (wake_loop addr count it num_waiters k).
Proof.
  rewrite !wake_loop_targets.
  rewrite (targets_ext k (set_system sys k)) by done.
  generalize (targets k addr count it num_waiters). intros ws. revert k.
  induction ws as [|w ws IH]; intros k; [done|].
  cbn [foldl]. by rewrite wake_target_set_system, IH.
Qed.

Lemma Signal_code addr count k :
  Signal addr count k
  = (RESULT_SUCCESS,
     wake_loop addr count (Tree.nfind_light (threads k) (addr, -1) (thread_tree k)) 0 k).
Proof. reflexivity. Qed.

(** X4. The two conditional signals wake as [Signal] does or not at
    all: when they return Success the threads, the tree and the
    wake-ups are those [Signal] with the same address and count leaves,
    and when they do not, they return InvalidState and threads, tree
    and wake-ups are as before.  Only the system (user memory and
    monitor) can differ. *)
Theorem conditional_signals_wake_like_Signal addr value count k :
  let signalled := (Signal addr count k).2 in
  (let r := SignalAndIncrementIfEqual addr value count k in
   (r.1 = RESULT_SUCCESS ∧ r.2 = set_system (system r.2) signalled) ∨
   (r.1 = ResultInvalidState ∧ r.2 = set_system (system r.2) k)) ∧
  (let r := SignalAndModifyByWaitingCountIfEqual addr value count k in
   (r.1 = RESULT_SUCCESS ∧ r.2 = set_system (system r.2) signalled) ∨
   (r.1 = ResultInvalidState ∧ r.2 = set_system (system r.2) k)).
Proof.
  cbv zeta. rewrite Signal_code. cbn [snd]. split.
  - rewrite SignalAndIncrementIfEqual_code.
    destruct (UpdateIfEqual _ _ _ _ _) as [[sys uv] ok]. cbv zeta.
    destruct (uv =? value); [left|right]; (split; [done|]); cbn [snd].
    + by rewrite wake_loop_set_system.
    + done.
  - rewrite SignalAndModifyByWaitingCountIfEqual_code. cbv zeta.
    destruct (if negb _ then _ else _) as [[sys uv] ok].
    destruct (uv =? value); [left|right]; (split; [done|]); cbn [snd].
    + by rewrite wake_loop_set_system.
    + done.
Qed.

(** X5. [SignalAndModifyByWaitingCountIfEqual] on a cell that does not
    hold [value] when the operation loads it: InvalidState, and the
    operation has stored nothing; memory differs from before at most by
    what other cores stored during the exclusive access, if there was
    one.  With no other core interfering the operation succeeds exactly
    when the cell holds [value]. *)
Theorem SignalAndModifyByWaitingCountIfEqual_checks_cell addr value count k :
  let r := SignalAndModifyByWaitingCountIfEqual addr value count k in
  (cell k addr ≠ value →
   r.1 = ResultInvalidState ∧
   (memory (system r.2) = memory (system k) ∨
    memory (system r.2) = memory (ExclusiveRead32 (system k) addr).2) ∧
   (quiet k → memory (system r.2) = memory (system k))) ∧
  (quiet k → (r.1 = RESULT_SUCCESS ↔ cell k addr = value)).
Proof.
  intros r. unfold r. rewrite SignalAndModifyByWaitingCountIfEqual_code. cbv zeta.
  set (new_value := updated_value _ _ _ _ _).
  destruct (negb (value =? new_value)).
  - pose proof (UpdateIfEqual_out (system k) 0 addr value new_value) as Hout.
    split.
    + intros Hne.
      pose proof (UpdateIfEqual_mismatch (system k) 0 addr value new_value Hne) as Hsys.
      destruct (UpdateIfEqual _ _ _ _ _) as [[sys uv] ok]. cbn [fst snd] in *.
      subst uv sys. fold (cell k addr).
      destruct (Z.eqb_spec (cell k addr) value); [done|].
      split_and!; [done|by right|].
      intros Hq. by rewrite (ExclusiveRead32_quiet _ _ Hq).
    + intros Hq. destruct (UpdateIfEqual _ _ _ _ _) as [[sys uv] ok].
      cbn [fst snd] in *. subst uv. fold (cell k addr).
      destruct (Z.eqb_spec (cell k addr) value); split; done.
  - unfold ReadFromUser. fold (cell k addr).
    destruct (Z.eqb_spec (cell k addr) value) as [Heq|Hne].
    + split; [done|]. intros _. split; done.
    + split; [intros _; split_and!; [done|by left|done]|].
      intros _. split; done.
Qed.

Lemma SignalAndModifyByWaitingCountIfEqual_checks_cell_witness :
  let r := SignalAndModifyByWaitingCountIfEqual 20480 9 1 two_waiters in
  r.1 = ResultInvalidState ∧ memory (system r.2) = memory (system two_waiters).
Proof.
  destruct (SignalAndModifyByWaitingCountIfEqual_checks_cell 20480 9 1 two_waiters)
    as (Hmiss & _).
  destruct Hmiss as (Hr & _ & Hmem); [vm_compute; discriminate|].
  split; [done|]. by apply Hmem.
Defined.

Lemma wake_all_key ws k n :
  address_arbiter_key (thread (foldl (λ k n, wake_target n k) k ws) n)
  = address_arbiter_key (thread k n).
Proof.
  revert k. induction ws as [|w ws IH]; intros k; [done|].
  cbn [foldl]. by rewrite IH, wake_target_key.
Qed.

(** Who still waits on [addr] once the threads of [ws] have been
    woken. *)
Lemma waiters_after_wake ws k addr :
  waiters (foldl (λ k n, wake_target n k) k ws) addr
  = filter (λ t, t ∉ ws) (waiters k addr).
Proof.
  unfold waiters.
  destruct (wake_all_frame ws k) as (_ & _ & _ & _ & -> & _).
  rewrite !list_filter_filter. apply list_filter_iff. intros t.
  unfold Thread.GetAddressArbiterKey. rewrite wake_all_key. tauto.
Qed.

Lemma filter_ext_elem (P Q : nat → Prop) `{∀ t, Decision (P t)} `{∀ t, Decision (Q t)}
    (l : list nat) :
  (∀ t, t ∈ l → P t ↔ Q t) → filter P l = filter Q l.
Proof.
  induction l as [|x l IH]; intros Hiff; [done|].
  rewrite !filter_cons.
  assert (P x ↔ Q x) as Hx by (apply Hiff; left).
  rewrite IH by (intros t Ht; apply Hiff; by right).
  destruct (decide (P x)), (decide (Q x)); tauto || done.
Qed.

Lemma filter_not_in_take (ws : list nat) n :
  NoDup ws → filter (λ t, t ∉ take n ws) ws = drop n ws.
Proof.
  revert n. induction ws as [|w ws IH]; intros n Hnd; [by destruct n|].
  apply NoDup_cons in Hnd as [Hw Hnd]. destruct n as [|n]; cbn [take drop].
  - rewrite filter_cons_True by apply not_elem_of_nil. f_equal.
    specialize (IH 0%nat Hnd). by rewrite take_0, drop_0 in IH.
  - rewrite filter_cons_False by (intros Hnot; apply Hnot; left).
    rewrite <- (IH n Hnd). apply filter_ext_elem.
    intros t Ht. rewrite not_elem_of_cons.
    split; [tauto|]. intros Hnot. split; [|done]. by intros ->.
Qed.

Lemma filter_not_in_self (ws : list nat) : filter (λ t, t ∉ ws) ws = [].
Proof.
  assert (∀ l : list nat, (∀ t, t ∈ l → t ∈ ws) → filter (λ t, t ∉ ws) l = []) as Hgen.
  { induction l as [|x l IH]; intros Hsub; [done|].
    rewrite filter_cons_False by (intros Hnot; apply Hnot, Hsub; left).
    apply IH. intros t Ht. apply Hsub. by right. }
  by apply Hgen.
Qed.

Lemma targets_wake_all k addr count it num_waiters :
  count <= 0 → targets k addr count it num_waiters = targets k addr 0 it 0.
Proof.
  intros Hc. revert num_waiters.
  assert (∀ n m, targets k addr count it n = targets k addr 0 it m) as Hgen.
  { induction it as [|t it IH]; intros n m; [done|]. cbn [targets].
    destruct (Z.leb_spec count 0); [|lia]. cbn [orb Z.leb Z.compare].
    rewrite (IH (Int.add n 1) (Int.add m 1)). done. }
  intros n. apply Hgen.
Qed.

(** X6. How signals on one address compose in a well-formed state:
    waking [a] and then [b] threads is waking [a + b]; after a signal
    that wakes all (count <= 0) a further signal finds nobody and
    changes nothing; and every count <= 0 does what count 0 does (on any
    state). *)
Theorem Signal_composes addr k :
  (Inv k →
   (∀ a b, 0 < a → 0 < b → Int.is_s32 (a + b) →
      Signal addr b (Signal addr a k).2 = Signal addr (a + b) k) ∧
   (∀ a b, a <= 0 → Int.is_s32 a → Int.is_s32 b →
      Signal addr b (Signal addr a k).2 = Signal addr a k)) ∧
  (∀ c, c <= 0 → Signal addr c k = Signal addr 0 k).
Proof.
  split.
  - intros Hinv. split.
    + intros a b Ha Hb Hab.
      assert (Int.is_s32 a ∧ Int.is_s32 b) as [Hia Hib].
      { unfold Int.is_s32, Int.min_s32, Int.max_s32, Int.half_modulus in *. lia. }
      pose proof (Signal_Inv addr a k Hinv) as Hinv'.
      rewrite (Signal_code addr b). rewrite wake_loop_signal by done.
      rewrite !Signal_code. cbn [snd]. rewrite !wake_loop_signal by done.
      assert (∀ c ws, 0 < c → batch c ws = take (Z.to_nat c) ws) as Hbatch.
      { intros c ws Hc. unfold batch. destruct (Z.leb_spec c 0); [lia|done]. }
      rewrite (Hbatch a), (Hbatch (a + b)) by lia.
      rewrite waiters_after_wake, (Hbatch b) by done. f_equal.
      assert (NoDup (waiters k addr)) as Hndw.
      { destruct Hinv as [_ Hn _ _]. unfold waiters. by apply NoDup_filter. }
      rewrite filter_not_in_take by done.
      rewrite <- foldl_app, take_take_drop. do 2 f_equal. lia.
    + intros a b Ha Hia Hib.
      pose proof (Signal_Inv addr a k Hinv) as Hinv'.
      rewrite (Signal_code addr b). rewrite wake_loop_signal by done.
      rewrite !Signal_code. cbn [snd]. rewrite !wake_loop_signal by done.
      assert (batch a (waiters k addr) = waiters k addr) as ->.
      { unfold batch. destruct (Z.leb_spec a 0); [done|lia]. }
      rewrite waiters_after_wake, filter_not_in_self. f_equal.
      unfold batch. destruct (b <=? 0); by rewrite ?take_nil.
  - intros c Hc. rewrite !Signal_code. f_equal.
    rewrite !wake_loop_targets. f_equal. by apply targets_wake_all.
Qed.

Lemma Signal_composes_witness :
  Signal 8192 2 (Signal 8192 1 three_waiters).2 = Signal 8192 3 three_waiters.
Proof.
  destruct (Signal_composes 8192 three_waiters) as (Hwf & _).
  destruct (Hwf three_waiters_Inv) as (Hadd & _).
  apply (Hadd 1 2); [lia|lia|s32_range].
Defined.

(** ** A wait from enrolment to return *)

Lemma enrolled_eq cur_thread addr timeout k :
  enrolled cur_thread addr timeout k
  = {| system := system k;
       threads := <[cur_thread := enrolled_thread addr (thread k cur_thread)]> (threads k);
       thread_tree :=
         Tree.insert (<[cur_thread := Thread.SetAddressArbiter addr (thread k cur_thread)]>
                        (threads k))
           cur_thread (thread_tree k);
       current_thread := current_thread k;
       sleepers := if 0 <? timeout then cur_thread :: sleepers k else sleepers k;
       woken := woken k |}.
Proof.
  unfold enrolled, enrolled_thread, on_thread, set_thread_tree, set_threads,
    ScheduleTimeEvent, set_sleepers, thread. cbn.
  rewrite !lookup_total_insert_eq, !insert_insert_eq.
  by destruct (0 <? timeout).
Qed.


Lemma resumed_sleepers cur_thread k :
  sleepers (resumed cur_thread k).2 = filter (λ n, n ≠ cur_thread) (sleepers k).
Proof.
  unfold resumed. cbv zeta. cbn [snd].
  by destruct (Thread.IsWaitingForAddressArbiter _).
Qed.

Lemma not_in_resumed_sleepers cur_thread k : cur_thread ∉ sleepers (resumed cur_thread k).2.
Proof. rewrite resumed_sleepers, list_elem_of_filter. tauto. Qed.








(** X9. When a wait returns, on whichever path, its caller is out of
    the tree and unbound, and no time event of the caller is pending
    that was not pending before the call.  The state is well-formed
    before the call, the caller is not enrolled, and what runs while
    the caller is parked keeps the state well-formed. *)
Theorem wait_leaves_caller_out parked addr value timeout k :
  Inv k →
  Thread.IsWaitingForAddressArbiter (thread k (current_thread k)) = false →
  (∀ k', Inv k' → Inv (parked k')) →
  let cur_thread := current_thread k in
  let out_of (k' : Kernel) :=
    (cur_thread ∉ thread_tree k') ∧
    Thread.IsWaitingForAddressArbiter (thread k' cur_thread) = false ∧
    (cur_thread ∉ sleepers k → cur_thread ∉ sleepers k') in
  out_of (WaitIfEqual parked addr value timeout k).2 ∧
  (∀ decrement, out_of (WaitIfLessThan parked addr value decrement timeout k).2).
Proof.
  intros Hinv Hflag Hparked cur_thread out_of.
  assert (cur_thread ∉ thread_tree k) as Hnot.
  { destruct Hinv as [_ _ _ Hf]. rewrite Hf. unfold cur_thread. congruence. }
  assert (out_of k) as Hk by done.
  assert (∀ sys, out_of (set_system sys
                           (on_thread cur_thread
                              (Thread.SetSyncedObject None ResultTimedOut) k))) as Hk2.
  { intros sys. split_and!; [done| |done].
    change (thread (set_system ?s ?k0) ?n) with (thread k0 n).
    by rewrite thread_on_thread_eq. }
  assert (∀ sys, out_of (resumed cur_thread
                           (parked (enrolled cur_thread addr timeout
                              (set_system sys
                                 (on_thread cur_thread
                                    (Thread.SetSyncedObject None ResultTimedOut) k))))).2)
    as Hres.
  { intros sys.
    match goal with
    | |- out_of (resumed _ ?k3).2 => assert (Inv k3) as Hinv3
    end.
    { apply Hparked, enrolled_Inv.
      - by apply set_system_Inv, on_thread_Inv.
      - change (thread (set_system ?s ?k0) ?n) with (thread k0 n).
        by rewrite thread_on_thread_eq. }
    destruct (resumed_unbound cur_thread _ Hinv3) as (? & ?).
    split_and!; [done|done|]. intros _. apply not_in_resumed_sleepers. }
  split.
  - rewrite WaitIfEqual_code. cbv zeta. fold cur_thread.
    destruct (Thread.IsTerminationRequested _); [done|].
    unfold ReadFromUser. cbn [negb].
    destruct (negb _); [apply Hk2|]. destruct (timeout =? 0); [apply Hk2|].
    apply Hres.
  - intros decrement. rewrite WaitIfLessThan_code. cbv zeta. fold cur_thread.
    destruct (Thread.IsTerminationRequested _); [done|].
    destruct (wait_user_value decrement
                (system (on_thread cur_thread
                           (Thread.SetSyncedObject None ResultTimedOut) k))
                addr value) as [sys' ->]. cbn [negb].
    destruct (_ >=? value); [apply Hk2|]. destruct (timeout =? 0); [apply Hk2|].
    apply Hres.
Qed.

Lemma wait_leaves_caller_out_witness :
  current_thread three_waiters
  ∉ thread_tree (WaitIfEqual (λ k, (Signal 8192 1 k).2) 8192 0 7 three_waiters).2.
Proof.
  destruct (wait_leaves_caller_out (λ k, (Signal 8192 1 k).2) 8192 0 7 three_waiters)
    as (Heq & _); [apply three_waiters_Inv|reflexivity| |].
  - intros k' Hk'. by apply Signal_Inv.
  - apply Heq.
Defined.

Lemma system_enrolled cur_thread addr timeout k :
  system (enrolled cur_thread addr timeout k) = system k.
Proof. by rewrite enrolled_eq. Qed.

Lemma system_resumed cur_thread k : system (resumed cur_thread k).2 = system k.
Proof.
  unfold resumed. cbv zeta. cbn [snd].
  by destruct (Thread.IsWaitingForAddressArbiter _).
Qed.

(** X10. [WaitIfEqual], and [WaitIfLessThan] without the decrement, do
    not touch user memory or the monitor: they read the cell with a
    plain load, so the system after the call is the system before it,
    with the schedule of the other cores still to come, if what runs
    while the caller is parked leaves the system alone. *)
Theorem plain_waits_leave_system parked addr value timeout k :
  (∀ k', system (parked k') = system k') →
  system (WaitIfEqual parked addr value timeout k).2 = system k ∧
  system (WaitIfLessThan parked addr value false timeout k).2 = system k.
Proof.
  intros Hparked. split.
  - rewrite WaitIfEqual_code. cbv zeta.
    destruct (Thread.IsTerminationRequested _); [done|].
    unfold ReadFromUser. cbn [negb].
    destruct (negb _); [done|]. destruct (timeout =? 0); [done|].
    by rewrite system_resumed, Hparked, system_enrolled.
  - rewrite WaitIfLessThan_code. cbv zeta.
    destruct (Thread.IsTerminationRequested _); [done|].
    unfold ReadFromUser. cbn [negb].
    destruct (_ >=? value); [done|]. destruct (timeout =? 0); [done|].
    by rewrite system_resumed, Hparked, system_enrolled.
Qed.

Lemma plain_waits_leave_system_witness :
  system (WaitIfLessThan (λ k, (Signal 16384 1 k).2) 16384 5 false 7
            (set_system (raced_to 7) decrement_scene)).2
  = raced_to 7.
Proof.
  destruct (plain_waits_leave_system (λ k, (Signal 16384 1 k).2) 16384 5 7
              (set_system (raced_to 7) decrement_scene)) as (_ & Hlt).
  - intros k'. rewrite Signal_code. cbn [snd]. rewrite wake_loop_targets.
    by destruct (wake_all_frame
                   (targets k' 16384 1
                      (Tree.nfind_light (threads k') (16384, -1) (thread_tree k')) 0) k')
      as (-> & _).
  - exact Hlt.
Defined.

(** ** The queue of one address *)

(** X11. Enrolment respects the queue: the waiters of [addr] after a
    caller of priority [p] has enrolled are the waiters before, with the
    caller behind every waiter of priority at most [p] and before the
    waiters of priority above [p]; the queues of the other addresses do
    not change.  So a later signal wakes a waiter of the same or a
    better priority that was there first before it wakes the caller. *)
Theorem enrolment_keeps_queue_order cur_thread addr timeout k :
  Inv k →
  Thread.IsWaitingForAddressArbiter (thread k cur_thread) = false →
  let k' := enrolled cur_thread addr timeout k in
  let p := priority (thread k cur_thread) in
  (∃ ahead behind,
     waiters k addr = ahead ++ behind ∧
     waiters k' addr = ahead ++ cur_thread :: behind ∧
     Forall (λ t, priority (thread k t) <= p) ahead ∧
     Forall (λ t, p < priority (thread k t)) behind) ∧
  (∀ a, a ≠ addr → waiters k' a = waiters k a).
Proof.
  intros Hinv Hflag k' p.
  destruct Hinv as [Hs Hnd Hp Hf].
  assert (cur_thread ∉ thread_tree k) as Hnot by (rewrite Hf; congruence).
  set (ts1 := <[cur_thread := Thread.SetAddressArbiter addr (thread k cur_thread)]>
                (threads k)).
  assert (thread_tree k' = Tree.insert ts1 cur_thread (thread_tree k)) as Htree
    by (unfold k'; by rewrite enrolled_eq).
  assert (∀ t, address_arbiter_key (thread k' t)
               = if decide (t = cur_thread) then addr
                 else address_arbiter_key (thread k t)) as Hkey'.
  { intros t. unfold k'. rewrite enrolled_eq. unfold thread. cbn [threads].
    destruct (decide (t = cur_thread)) as [->|Hne].
    - by rewrite lookup_total_insert_eq.
    - by rewrite lookup_total_insert_ne. }
  assert (∀ t, t ≠ cur_thread → Tree.node_key ts1 t = Tree.node_key (threads k) t)
    as Hnk.
  { intros t Hne. unfold Tree.node_key, ts1. by rewrite lookup_total_insert_ne. }
  assert (Tree.node_key ts1 cur_thread = (addr, p)) as Hnc.
  { unfold Tree.node_key, ts1. by rewrite lookup_total_insert_eq. }
  assert (StronglySorted (node_le ts1) (thread_tree k)) as Hs1.
  { eapply sorted_ext; [|exact Hs]. intros t Ht. symmetry. apply Hnk.
    intros ->. done. }
  destruct (insert_after_equals ts1 cur_thread (thread_tree k))
    as (front & back & Hsplit & Hins & Hfront & Hback).
  assert (Forall (λ t, Tree.key_lt (Tree.node_key ts1 cur_thread)
                         (Tree.node_key ts1 t) = true) back) as Hback'.
  { destruct back as [|b back]; [constructor|].
    rewrite Hsplit in Hs1. apply StronglySorted_app in Hs1 as (_ & _ & Hsb).
    apply StronglySorted_cons in Hsb as [Hb _].
    constructor; [done|]. eapply Forall_impl; [exact Hb|].
    intros t Ht. unfold node_le in Ht. apply key_lt_false in Ht.
    apply key_lt_true in Hback. apply key_lt_true. lia. }
  assert (∀ t, t ∈ thread_tree k → t ≠ cur_thread) as Hin_ne by (by intros t Ht ->).
  (* the queue of an address before and after, on a part of the old tree *)
  assert (∀ a (l : list nat), (∀ t, t ∈ l → t ∈ thread_tree k) →
            filter (λ t, Thread.GetAddressArbiterKey (thread k' t) = a) l
            = filter (λ t, Thread.GetAddressArbiterKey (thread k t) = a) l) as Hold.
  { intros a l Hl. apply filter_ext_elem. intros t Ht.
    unfold Thread.GetAddressArbiterKey. rewrite Hkey'.
    destruct (decide (t = cur_thread)) as [->|_]; [|done].
    by apply Hl, Hin_ne in Ht. }
  assert (∀ t, t ∈ front → t ∈ thread_tree k) as Hfsub
    by (intros t Ht; rewrite Hsplit, elem_of_app; by left).
  assert (∀ t, t ∈ back → t ∈ thread_tree k) as Hbsub
    by (intros t Ht; rewrite Hsplit, elem_of_app; by right).
  split.
  - exists (filter (λ t, Thread.GetAddressArbiterKey (thread k t) = addr) front),
           (filter (λ t, Thread.GetAddressArbiterKey (thread k t) = addr) back).
    split_and!.
    + unfold waiters. by rewrite Hsplit, filter_app.
    + unfold waiters. rewrite Htree, Hins, filter_app, filter_cons_True.
      * by rewrite !Hold.
      * unfold Thread.GetAddressArbiterKey. rewrite Hkey'. by rewrite decide_True.
    + apply Forall_forall. intros t [Hk Ht]%list_elem_of_filter.
      rewrite Forall_forall in Hfront. specialize (Hfront t Ht).
      unfold node_le in Hfront. apply key_lt_false in Hfront.
      rewrite Hnc, Hnk in Hfront by (apply Hin_ne, Hfsub, Ht).
      unfold Tree.node_key, Thread.GetAddressArbiterKey, Thread.GetPriority, thread in *.
      cbn [fst snd] in Hfront. lia.
    + apply Forall_forall. intros t [Hk Ht]%list_elem_of_filter.
      rewrite Forall_forall in Hback'. specialize (Hback' t Ht).
      apply key_lt_true in Hback'.
      rewrite Hnc, Hnk in Hback' by (apply Hin_ne, Hbsub, Ht).
      unfold Tree.node_key, Thread.GetAddressArbiterKey, Thread.GetPriority, thread in *.
      cbn [fst snd] in Hback'. lia.
  - intros a Ha. unfold waiters. rewrite Htree, Hins, filter_app, filter_cons_False.
    + rewrite !Hold by done. by rewrite Hsplit, filter_app.
    + unfold Thread.GetAddressArbiterKey. rewrite Hkey'. rewrite decide_True by done.
      congruence.
Qed.

Lemma enrolment_keeps_queue_order_witness :
  ∃ ahead behind,
    waiters three_waiters 8192 = ahead ++ behind ∧
    waiters (enrolled 5 8192 (-1) three_waiters) 8192 = ahead ++ 5%nat :: behind ∧
    Forall (λ t, priority (thread three_waiters t) <= priority (thread three_waiters 5))
      ahead ∧
    Forall (λ t, priority (thread three_waiters 5) < priority (thread three_waiters t))
      behind.
Proof.
  exact (proj1 (enrolment_keeps_queue_order 5 8192 (-1) three_waiters three_waiters_Inv
                  eq_refl)).
Defined.

Lemma elem_of_batch count (ws : list nat) t : t ∈ batch count ws → t ∈ ws.
Proof.
  unfold batch. destruct (count <=? 0); [done|]. apply subseteq_take.
Qed.

Lemma filter_all (P : nat → Prop) `{∀ t, Decision (P t)} (l : list nat) :
  (∀ t, t ∈ l → P t) → filter P l = l.
Proof.
  induction l as [|x l IH]; intros Hall; [done|].
  rewrite filter_cons_True by (apply Hall; left).
  f_equal. apply IH. intros t Ht. apply Hall. by right.
Qed.

Lemma wake_all_lookup ws k n :
  NoDup ws → n ∈ ws →
  threads (foldl (λ k n, wake_target n k) k ws) !! n = Some (woken_thread (thread k n)).
Proof.
  revert k. induction ws as [|w ws IH]; intros k Hnd Hn; cbn [foldl];
    [by apply elem_of_nil in Hn|].
  apply NoDup_cons in Hnd as [Hw Hnd].
  destruct (decide (n = w)) as [->|Hne].
  - pose proof (wake_all_frame ws (wake_target w k)) as (_ & _ & _ & _ & _ & Hthr).
    rewrite (Hthr w Hw), wake_target_eq. cbn [threads]. by rewrite lookup_insert_eq.
  - apply elem_of_cons in Hn as [?|Hn]; [done|]. rewrite IH by done.
    unfold thread. rewrite !lookup_total_alt. by rewrite thread_wake_target_ne.
Qed.

(** Waking the threads of a list gives the same tree and thread objects
    in whichever order it is done. *)
Lemma wake_all_any_order ws ws' k :
  NoDup ws → NoDup ws' → (∀ t, t ∈ ws ↔ t ∈ ws') →
  let k1 := foldl (λ k n, wake_target n k) k ws in
  let k2 := foldl (λ k n, wake_target n k) k ws' in
  thread_tree k1 = thread_tree k2 ∧ threads k1 = threads k2.
Proof.
  intros Hnd Hnd' Hiff k1 k2.
  destruct (wake_all_frame ws k) as (_ & _ & _ & _ & Htree & Hthr).
  destruct (wake_all_frame ws' k) as (_ & _ & _ & _ & Htree' & Hthr').
  split.
  - fold k1 in Htree. fold k2 in Htree'. rewrite Htree, Htree'.
    apply list_filter_iff. intros t. by rewrite Hiff.
  - apply map_eq. intros n. destruct (decide (n ∈ ws)) as [Hin|Hout].
    + unfold k1, k2. rewrite !wake_all_lookup; [done|done| |done|done].
      by apply Hiff.
    + fold k1 in Hthr. fold k2 in Hthr'. rewrite Hthr, Hthr'; [done| |done].
      by rewrite <- Hiff.
Qed.

(** X12. Signals on two addresses do not meet: a signal on [a] leaves
    the queue of another address [b] as it is, and the two signals in
    either order give the same tree, the same thread objects and the
    same system; the threads are woken in the order of the calls. *)
Theorem Signals_on_two_addresses a b ca cb k :
  Inv k → a ≠ b → Int.is_s32 ca → Int.is_s32 cb →
  let k1 := (Signal b cb (Signal a ca k).2).2 in
  let k2 := (Signal a ca (Signal b cb k).2).2 in
  waiters (Signal a ca k).2 b = waiters k b ∧
  thread_tree k1 = thread_tree k2 ∧ threads k1 = threads k2 ∧
  system k1 = system k2 ∧ sleepers k1 = sleepers k2 ∧
  woken k1 = woken k ++ batch ca (waiters k a) ++ batch cb (waiters k b) ∧
  woken k2 = woken k ++ batch cb (waiters k b) ++ batch ca (waiters k a).
Proof.
  intros Hinv Hab Hca Hcb k1 k2.
  assert (∀ x y cx, x ≠ y →
            waiters (foldl (λ k n, wake_target n k) k (batch cx (waiters k x))) y
            = waiters k y) as Hkeep.
  { intros x y cx Hxy. rewrite waiters_after_wake.
    apply filter_all. intros t Ht Hin%elem_of_batch.
    unfold waiters in Ht, Hin.
    apply list_elem_of_filter in Ht as [Ht _]. apply list_elem_of_filter in Hin as [Hin _].
    congruence. }
  assert (∀ x y cx cy, x ≠ y → Int.is_s32 cx → Int.is_s32 cy →
            (Signal y cy (Signal x cx k).2).2
            = foldl (λ k n, wake_target n k) k
                (batch cx (waiters k x) ++ batch cy (waiters k y))) as Hboth.
  { intros x y cx cy Hxy Hcx Hcy.
    pose proof (Signal_Inv x cx k Hinv) as Hinv'.
    rewrite (Signal_code y cy). cbn [snd]. rewrite wake_loop_signal by done.
    rewrite Signal_code. cbn [snd]. rewrite wake_loop_signal by done.
    rewrite Hkeep by done. by rewrite foldl_app. }
  assert (∀ x y cx cy, x ≠ y →
            NoDup (batch cx (waiters k x) ++ batch cy (waiters k y))) as Hnd.
  { intros x y cx cy Hxy. apply NoDup_app. split_and!; [by apply batch_nodup| |by apply batch_nodup].
    intros t Hx%elem_of_batch Hy%elem_of_batch. unfold waiters in Hx, Hy.
    apply list_elem_of_filter in Hx as [Hx _]. apply list_elem_of_filter in Hy as [Hy _].
    congruence. }
  unfold k1, k2. rewrite (Hboth a b), (Hboth b a) by done.
  destruct (wake_all_any_order (batch ca (waiters k a) ++ batch cb (waiters k b))
              (batch cb (waiters k b) ++ batch ca (waiters k a)) k)
    as (Htree & Hthr); [by apply Hnd|by apply Hnd| |].
  { intros t. rewrite !elem_of_app. tauto. }
  destruct (wake_all_frame (batch ca (waiters k a) ++ batch cb (waiters k b)) k)
    as (Hsys & _ & Hsl & Hwk & _).
  destruct (wake_all_frame (batch cb (waiters k b) ++ batch ca (waiters k a)) k)
    as (Hsys' & _ & Hsl' & Hwk' & _).
  split_and!; [|done|done|congruence|congruence|done|done].
  rewrite Signal_code. cbn [snd]. rewrite wake_loop_signal by done. by apply Hkeep.
Qed.

Lemma Signals_on_two_addresses_witness :
  threads (Signal 12288 1 (Signal 8192 2 three_waiters).2).2
  = threads (Signal 8192 2 (Signal 12288 1 three_waiters).2).2.
Proof.
  apply (Signals_on_two_addresses 8192 12288 2 1 three_waiters three_waiters_Inv);
    [done|s32_range|s32_range].
Defined.
